(** * go-cfgreader: a shallow embedding of the configuration loader

    The development follows the two Go source files, [common.go]
    ([baseName]) and [cfgreader.go] (format registry, single-file loader,
    directory scanner, facade).

    Conventions of the embedding.
    - A Go [string] is a sequence of bytes: Rocq's [string] (a list of
      8-bit [ascii]).  Indices and sizes are [Z], as Go's [int]/[int64].
    - The library functions the code calls on strings ([strings.LastIndex],
      [strings.ToLower], [filepath.Ext]) are written out after the loops of
      the Go standard library, for Unix paths (the only separator is "/").
      [strings.ToLower] has its ASCII branch written out; for a string
      with a byte above 127 it returns what Go's Unicode tables give,
      which is a parameter ([UnicodeTables]).
    - Maps are stdpp's [gmap]; a map that the code ranges over is given
      together with its iteration order as an association list.
    - An [error] is a message with an optional wrapped cause, as built by
      [fmt.Errorf].
    - Effects (log records, calls to the operating system) are recorded in
      a trace; a nil dereference is the outcome [Panics]. *)

From Stdlib Require Import ZArith String Ascii List Lia.
From stdpp Require Import gmap strings list fin_maps pretty.

Local Open Scope Z_scope.

(** ** Strings *)

(** What [strings.Map(unicode.ToLower, s)] returns.  Go computes it from
    the case tables of its package [unicode], which are no part of this
    repository: the function is a parameter of the development. *)
Class UnicodeTables := { Map_unicode_ToLower : string → string }.

Module Strings.

(** [s[i]] for a byte index. *)
Definition at_ (s : string) (i : nat) : option ascii := String.get i s.

(** The downward loop of [strings.LastIndex] for a one-byte needle:
    [for i := n - 1; i >= 0; i-- { if s[i] == c { return i } }; return -1]. *)
Fixpoint last_index_from (s : string) (c : ascii) (n : nat) : Z :=
  match n with
  | O => -1
  | S i =>
      match at_ s i with
      | Some a => if Ascii.eqb a c then Z.of_nat i else last_index_from s c i
      | None => last_index_from s c i
      end
  end.

(** [strings.LastIndex(s, ".")] and the like. *)
Definition LastIndex (s : string) (c : ascii) : Z :=
  last_index_from s c (String.length s).

(** The slice [s[:n]]. *)
Definition slice_to (s : string) (n : Z) : string :=
  String.substring 0 (Z.to_nat n) s.

(** The slice [s[i:]]. *)
Definition slice_from (s : string) (i : nat) : string :=
  String.substring i (String.length s - i) s.

Definition is_upper (c : ascii) : bool :=
  let n := Z.of_N (N_of_ascii c) in (65 <=? n) && (n <=? 90).

(** ['A' <= c && c <= 'Z'] gives [c + ('a' - 'A')]. *)
Definition to_lower_byte (c : ascii) : ascii :=
  if is_upper c then ascii_of_N (N_of_ascii c + 32) else c.

(** [c < utf8.RuneSelf]. *)
Definition is_ascii_byte (c : ascii) : bool := Z.of_N (N_of_ascii c) <? 128.

(** The first loop of [strings.ToLower]: is every byte below
    [utf8.RuneSelf], and is one of them an upper-case letter. *)
Fixpoint isASCII (s : string) : bool :=
  match s with
  | EmptyString => true
  | String c s' => is_ascii_byte c && isASCII s'
  end.

Fixpoint hasUpper (s : string) : bool :=
  match s with
  | EmptyString => false
  | String c s' => is_upper c || hasUpper s'
  end.

(** The second loop: each byte ['A'..'Z'] replaced by its lower-case
    letter. *)
Fixpoint lower_bytes (s : string) : string :=
  match s with
  | EmptyString => EmptyString
  | String c s' => String (to_lower_byte c) (lower_bytes s')
  end.

(** [strings.ToLower]: an ASCII string is returned as it is when it has no
    upper-case letter, and with its upper-case letters replaced otherwise;
    any other string goes through [strings.Map(unicode.ToLower, s)]. *)
Definition ToLower `{UnicodeTables} (s : string) : string :=
  if isASCII s then (if hasUpper s then lower_bytes s else s)
  else Map_unicode_ToLower s.

(** [os.IsPathSeparator] on Unix. *)
Definition IsPathSeparator (c : ascii) : bool := Ascii.eqb c "/".

(** The loop of [filepath.Ext]:
    [for i := len(path) - 1; i >= 0 && !os.IsPathSeparator(path[i]); i--
       { if path[i] == '.' { return path[i:] } }; return ""]. *)
Fixpoint ext_from (path : string) (n : nat) : string :=
  match n with
  | O => ""
  | S i =>
      match at_ path i with
      | Some c =>
          if IsPathSeparator c then ""
          else if Ascii.eqb c "." then slice_from path i
          else ext_from path i
      | None => ""
      end
  end.

Definition Ext (path : string) : string := ext_from path (String.length path).

(** No byte of [s] is [c]. *)
Definition lacks (c : ascii) (s : string) : Prop :=
  ∀ i, at_ s i ≠ Some c.


End Strings.

Import Strings.

(** ** common.go *)

Definition baseName (filename : string) : string :=
  let lastDotIndex := LastIndex filename "." in
  if negb (lastDotIndex =? -1) && negb (lastDotIndex =? 0)
  then slice_to filename lastDotIndex
  else filename.


(** ** Errors

    [fmt.Errorf] without the verb [%w] gives a plain message; with [%w] it
    gives a message that ends in the cause's message and wraps the cause. *)

Inductive error : Type :=
| errorString (msg : string)
| wrapError (msg : string) (err : error).

Definition Error (e : error) : string :=
  match e with
  | errorString msg => msg
  | wrapError msg _ => msg
  end.

Definition Unwrap (e : error) : option error :=
  match e with
  | errorString _ => None
  | wrapError _ err => Some err
  end.

Module fmt.

(** [fmt.Errorf(msg)] with every [%s] and [%d] already filled in. *)
Definition Errorf (msg : string) : error := errorString msg.

(** [fmt.Errorf(prefix + "%w", err)]. *)
Definition Errorf_w (prefix : string) (err : error) : error :=
  wrapError (prefix +:+ Error err) err.

(** The verb [%d] on an integer. *)
Definition d (n : Z) : string := pretty n.

End fmt.

(** ** Effects *)

Inductive Level := LevelDebug | LevelInfo | LevelWarn.

Inductive Attr :=
| slog_String (key value : string)
| slog_Int (key : string) (value : Z)
| slog_Bool (key : string) (value : bool).

(** What a call leaves behind: log records and calls to the [os] package. *)
Inductive event :=
| ev_log (level : Level) (msg : string) (attrs : list Attr)
| ev_Stat (path : string)
| ev_Lstat (path : string)
| ev_ReadDir (path : string)
| ev_ReadFile (path : string).

Inductive outcome (A : Type) : Type :=
| Returns (a : A)
| Panics.
Arguments Returns {A} a.
Arguments Panics {A}.

(** A computation: its trace and how it ends. *)
Definition M (A : Type) : Type := (list event * outcome A)%type.

Definition ret {A} (a : A) : M A := ([], Returns a).

Definition bind {A B} (m : M A) (k : A → M B) : M B :=
  match m with
  | (t, Returns a) => let '(t', r) := k a in (t ++ t', r)
  | (t, Panics) => (t, Panics)
  end.

Definition emit (e : event) : M unit := ([e], Returns tt).
Definition panic {A} : M A := ([], Panics).

Definition trace {A} (m : M A) : list event := fst m.
Definition result {A} (m : M A) : outcome A := snd m.

Notation "'let*' x := m 'in' k" := (bind m (fun x => k))
  (at level 10, x name, m at level 200, k at level 200).
Notation "'let*' ' p := m 'in' k" := (bind m (fun x => match x with p => k end))
  (at level 10, p pattern, m at level 200, k at level 200).

(** A 64-bit signed integer after an addition. *)
Definition wrap64 (z : Z) : Z := (z + 2 ^ 63) mod 2 ^ 64 - 2 ^ 63.
Definition incr (z : Z) : Z := wrap64 (z + 1).

(** ** The file system, as the reader sees it *)

(** [fs.FileInfo]: the three methods the code calls. *)
Record FileInfo := mkFileInfo {
  fi_Name : string;
  fi_Size : Z;
  fi_IsDir : bool
}.

(** [fs.DirEntry]: [Name()], [IsDir()] and [Info()], and, for an entry
    that a walk descends into, what [os.ReadDir] returns for it: the
    entries read and the error, if any (both can be present). *)
#[local] Set Warnings "-register-all".
Inductive DirEntry : Type :=
  mkDirEntry (de_Name : string) (de_IsDir : bool) (de_Info : FileInfo + error)
             (de_ReadDir : list DirEntry * option error).

Definition de_Name (d : DirEntry) : string :=
  match d with mkDirEntry n _ _ _ => n end.
Definition de_IsDir (d : DirEntry) : bool :=
  match d with mkDirEntry _ b _ _ => b end.
Definition de_Info (d : DirEntry) : FileInfo + error :=
  match d with mkDirEntry _ _ i _ => i end.
Definition de_ReadDir (d : DirEntry) : list DirEntry * option error :=
  match d with mkDirEntry _ _ _ l => l end.

(** The [os] and [path/filepath] functions whose results depend on the
    machine, keyed by path. *)
Record Env := mkEnv {
  os_Stat : string → FileInfo + error;
  os_Lstat : string → FileInfo + error;
  os_ReadDir : string → list DirEntry * option error;
  os_ReadFile : string → list Byte.byte + error;
  filepath_Join : string → string → string;
  filepath_Dir : string → string
}.

(** [fs.FileInfoToDirEntry(info)], for the root of a walk. *)
Definition FileInfoToDirEntry (env : Env) (path : string) (info : FileInfo) : DirEntry :=
  mkDirEntry (fi_Name info) (fi_IsDir info) (inl info) (os_ReadDir env path).

(** ** cfgreader.go *)

Definition ConfigFormat := Z.

Definition FormatUnknown : ConfigFormat := 0.
Definition FormatYAML : ConfigFormat := 1.
Definition FormatJSON : ConfigFormat := 2.
Definition DefaultFormatsCount : ConfigFormat := 3.

(** [*slog.Logger]; the reader holds a pointer to one. *)
Inductive Logger := slog_Default | slog_New (handler : nat).

(** [scanStats]. *)
Record scanStats := mkScanStats {
  processed : Z;
  skipped : Z;
  errors : Z
}.

Definition inc_processed (s : scanStats) : scanStats :=
  mkScanStats (incr (processed s)) (skipped s) (errors s).
Definition inc_skipped (s : scanStats) : scanStats :=
  mkScanStats (processed s) (incr (skipped s)) (errors s).
Definition inc_errors (s : scanStats) : scanStats :=
  mkScanStats (processed s) (skipped s) (incr (errors s)).

(** The errors the reader builds, under the names the specification gives
    their kinds. *)
Definition IsDirectory : error := fmt.Errorf "path is a directory".
Definition TooLarge (size max : Z) : error :=
  fmt.Errorf ("file size " +:+ fmt.d size +:+
              " exceeds maximum allowed size " +:+ fmt.d max).
Definition UnsupportedFormat : error := fmt.Errorf "unsupported file format".
Definition ReadError (err : error) : error :=
  fmt.Errorf_w "failed to read file: " err.
Definition NoRegisteredFormat (name : string) : error :=
  fmt.Errorf ("no registered format: " +:+ name).
Definition ParseError (name : string) (err : error) : error :=
  fmt.Errorf_w ("failed to unmarshal " +:+ name +:+ ": ") err.
Definition StrictInfoError (filename : string) (err : error) : error :=
  fmt.Errorf_w ("strict mode: failed to get info for " +:+ filename +:+ ": ") err.
Definition StrictProcessError (filename : string) (err : error) : error :=
  fmt.Errorf_w ("strict mode: failed to process " +:+ filename +:+ ": ") err.
Definition DuplicateName (name filename : string) : error :=
  fmt.Errorf ("strict mode: duplicate service name '" +:+ name +:+
              "' in file " +:+ filename).
Definition ReadDirError (err : error) : error :=
  fmt.Errorf_w "failed to read directory: " err.
Definition StrictAccessError (path : string) (err : error) : error :=
  fmt.Errorf_w ("strict mode: failed to access " +:+ path +:+ ": ") err.
Definition DirInaccessible (err : error) : error :=
  fmt.Errorf_w "configuration directory inaccessible: " err.
Definition NotADirectory : error :=
  fmt.Errorf "path is not a directory, use ReadFile instead".
Definition FileInaccessible (err : error) : error :=
  fmt.Errorf_w "configuration file inaccessible: " err.
Definition IsDirectoryUseReadDir : error :=
  fmt.Errorf "path is a directory, use ReadDir or ReadDirMap instead".
Definition ProcessError (err : error) : error :=
  fmt.Errorf_w "failed to process file: " err.

Section Reader.

(** The caller's target type [T] and its zero value ([var cfg T]). *)
Context {tables : UnicodeTables} {T : Type}.
Variable zero : T.

(** [UnmarshalFunc]: fills the target and may fail. *)
Definition UnmarshalFunc : Type := list Byte.byte → T → T * option error.

(** The two deserializers the package imports. *)
Variables yaml_Unmarshal json_Unmarshal : UnmarshalFunc.

Record FormatData := mkFormatData {
  Name : string;
  Extensions : list string;
  Unmarshal : option UnmarshalFunc
}.

(** The zero [FormatData], which a map lookup of an absent key yields. *)
Definition zeroFormatData : FormatData := mkFormatData "" [] None.

(** A [FormatMap] that the code ranges over: its entries in the order the
    iteration visits them (Go leaves that order open). *)
Definition FormatMap : Type := list (ConfigFormat * FormatData).

Definition DefaultFormats : FormatMap :=
  [ (FormatUnknown, mkFormatData "unknown" [""] None);
    (FormatYAML, mkFormatData "yaml" [".yaml"; ".yml"] (Some yaml_Unmarshal));
    (FormatJSON, mkFormatData "json" [".json"] (Some json_Unmarshal)) ].

Record ConfigReader := mkConfigReader {
  logger : option Logger;
  defaultPath : string;
  supportedExts : gmap string ConfigFormat;
  formats : gmap ConfigFormat FormatData;
  strictMode : bool;
  maxFileSize : Z;
  recursive : bool
}.

Definition ConfigReaderOption : Type := ConfigReader → ConfigReader.

Definition WithLogger (l : option Logger) : ConfigReaderOption := λ cr,
  mkConfigReader l (defaultPath cr) (supportedExts cr) (formats cr)
                 (strictMode cr) (maxFileSize cr) (recursive cr).

Definition WithStrictMode (strict : bool) : ConfigReaderOption := λ cr,
  mkConfigReader (logger cr) (defaultPath cr) (supportedExts cr) (formats cr)
                 strict (maxFileSize cr) (recursive cr).

Definition WithMaxFileSize (size : Z) : ConfigReaderOption := λ cr,
  mkConfigReader (logger cr) (defaultPath cr) (supportedExts cr) (formats cr)
                 (strictMode cr) size (recursive cr).

Definition WithDefaultPath (path : string) : ConfigReaderOption := λ cr,
  mkConfigReader (logger cr) path (supportedExts cr) (formats cr)
                 (strictMode cr) (maxFileSize cr) (recursive cr).

Definition WithRecursive (rec : bool) : ConfigReaderOption := λ cr,
  mkConfigReader (logger cr) (defaultPath cr) (supportedExts cr) (formats cr)
                 (strictMode cr) (maxFileSize cr) rec.

(** The inner loop of [RegisterFormats]:
    [cr.supportedExts[strings.ToLower(ext)] = formatID]. *)
Definition register_exts (formatID : ConfigFormat) (exts : list string)
    (m : gmap string ConfigFormat) : gmap string ConfigFormat :=
  fold_left (λ m ext, <[ToLower ext := formatID]> m) exts m.

(** [maps.Copy(dst, src)]. *)
Definition maps_Copy (dst : gmap ConfigFormat FormatData) (src : FormatMap)
    : gmap ConfigFormat FormatData :=
  fold_left (λ m kv, <[kv.1 := kv.2]> m) src dst.

Definition RegisterFormats (fm : FormatMap) (cr : ConfigReader) : ConfigReader :=
  mkConfigReader (logger cr) (defaultPath cr)
    (fold_left (λ m kv, register_exts kv.1 (Extensions kv.2) m) fm (supportedExts cr))
    (maps_Copy (formats cr) fm)
    (strictMode cr) (maxFileSize cr) (recursive cr).

Definition NewConfigReader (opts : list ConfigReaderOption) : ConfigReader :=
  let cr := mkConfigReader (Some slog_Default) "/etc/config" ∅ ∅
                           false (10 * 1024 * 1024) false in
  let cr := RegisterFormats DefaultFormats cr in
  fold_left (λ cr opt, opt cr) opts cr.

Definition detectFormat (cr : ConfigReader) (filename : string) : ConfigFormat :=
  let ext := ToLower (Ext filename) in
  match supportedExts cr !! ext with
  | Some format => format
  | None => FormatUnknown
  end.

(** A method call on [cr.logger]; a nil logger cannot be called. *)
Definition log (cr : ConfigReader) (level : Level) (msg : string)
    (attrs : list Attr) : M unit :=
  match logger cr with
  | Some _ => emit (ev_log level msg attrs)
  | None => panic
  end.

(** [cr.formats[format]]: the entry, or the zero value. *)
Definition format_entry (cr : ConfigReader) (format : ConfigFormat) : FormatData * bool :=
  match formats cr !! format with
  | Some fd => (fd, true)
  | None => (zeroFormatData, false)
  end.

Definition readAndParseFile (cr : ConfigReader) (env : Env) (fullPath : string)
    (format : ConfigFormat) (target : T) : M (T * option error) :=
  let* _ := log cr LevelDebug "reading configuration file"
              [slog_String "path" fullPath;
               slog_String "format" (Name (format_entry cr format).1)] in
  let* _ := emit (ev_ReadFile fullPath) in
  match os_ReadFile env fullPath with
  | inr err => ret (target, Some (ReadError err))
  | inl data =>
      let* _ := log cr LevelDebug "file read successfully"
                  [slog_String "path" fullPath;
                   slog_Int "bytes" (Z.of_nat (length data))] in
      let '(formatItem, exists_) := format_entry cr format in
      if negb exists_ then ret (target, Some (NoRegisteredFormat (Name formatItem)))
      else
        match Unmarshal formatItem with
        | None => panic
        | Some unmarshal =>
            let '(target, err) := unmarshal data target in
            match err with
            | Some err => ret (target, Some (ParseError (Name formatItem) err))
            | None =>
                let* _ := log cr LevelDebug "file parsed successfully"
                            [slog_String "path" fullPath;
                             slog_String "format" (Name formatItem)] in
                ret (target, None)
            end
        end
  end.

Definition processFile (cr : ConfigReader) (env : Env) (fullPath : string)
    (info : FileInfo) : M (option T * string * option error) :=
  let filename := fi_Name info in
  if fi_IsDir info then ret (None, baseName filename, Some IsDirectory)
  else if maxFileSize cr <? fi_Size info then
    ret (None, baseName filename, Some (TooLarge (fi_Size info) (maxFileSize cr)))
  else
    let format := detectFormat cr (fi_Name info) in
    if format =? FormatUnknown then
      ret (None, baseName filename, Some UnsupportedFormat)
    else
      let* '(cfg, err) := readAndParseFile cr env fullPath format zero in
      match err with
      | Some err => ret (None, "", Some err)
      | None => ret (Some cfg, baseName filename, None)
      end.

Definition ReadFile (cr : ConfigReader) (env : Env) (filePath : string)
    : M (option T * option error) :=
  let* filePath :=
    (if String.eqb filePath "" then
       let* _ := log cr LevelInfo "using default configuration file"
                   [slog_String "path" (defaultPath cr)] in
       ret (defaultPath cr)
     else ret filePath) in
  let* _ := log cr LevelInfo "reading configuration file"
              [slog_String "path" filePath] in
  let* _ := emit (ev_Stat filePath) in
  match os_Stat env filePath with
  | inr err => ret (None, Some (FileInaccessible err))
  | inl info =>
      if fi_IsDir info then ret (None, Some IsDirectoryUseReadDir)
      else
        let* '(cfg, _, err) := processFile cr env filePath info in
        match err with
        | Some err => ret (None, Some (ProcessError err))
        | None =>
            let* _ := log cr LevelInfo "configuration loaded successfully"
                        [slog_String "path" filePath] in
            ret (cfg, None)
        end
  end.

(** The state of a scan: the result map and the counters, both of which the
    scanning functions update in place, and the error they return. *)
Definition scan : Type := (option error * gmap string T * scanStats)%type.

Definition processEntry (cr : ConfigReader) (env : Env) (parentDir : string)
    (entry : DirEntry) (configs : gmap string T) (stats : scanStats) : M scan :=
  let filename := de_Name entry in
  let fullPath := filepath_Join env parentDir filename in
  match de_Info entry with
  | inr err =>
      let stats := inc_errors stats in
      let* _ := log cr LevelWarn "failed to get file info"
                  [slog_String "file" filename;
                   slog_String "error" (Error err)] in
      if strictMode cr then
        ret (Some (StrictInfoError filename err), configs, stats)
      else ret (None, configs, inc_skipped stats)
  | inl info =>
      let* '(cfg, name, err) := processFile cr env fullPath info in
      match err with
      | Some err =>
          let stats := inc_errors stats in
          let* _ := log cr LevelWarn "failed to process configuration file"
                      [slog_String "file" fullPath;
                       slog_String "error" (Error err)] in
          if strictMode cr then
            ret (Some (StrictProcessError filename err), configs, stats)
          else ret (None, configs, inc_skipped stats)
      | None =>
          match cfg with
          | None => ret (None, configs, inc_skipped stats)
          | Some cfg =>
              let store : M scan :=
                let configs := <[name := cfg]> configs in
                let stats := inc_processed stats in
                let* _ := log cr LevelInfo "configuration loaded successfully"
                            [slog_String "service" name;
                             slog_String "file" fullPath] in
                ret (None, configs, stats) in
              match configs !! name with
              | Some _ =>
                  let* _ := log cr LevelWarn "duplicate service name detected"
                              [slog_String "service" name;
                               slog_String "file" fullPath] in
                  if strictMode cr then
                    ret (Some (DuplicateName name filename), configs, stats)
                  else
                    let* _ := log cr LevelInfo "overwriting previous configuration"
                                [slog_String "service" name] in
                    store
              | None => store
              end
          end
      end
  end.

(** The loop of [scanFlat] over the listed entries. *)
Fixpoint scanFlat_loop (cr : ConfigReader) (env : Env) (dirPath : string)
    (files : list DirEntry) (configs : gmap string T) (stats : scanStats) : M scan :=
  match files with
  | [] => ret (None, configs, stats)
  | file :: files =>
      if de_IsDir file then
        scanFlat_loop cr env dirPath files configs (inc_skipped stats)
      else
        let* '(err, configs, stats) := processEntry cr env dirPath file configs stats in
        match err with
        | Some err =>
            if strictMode cr then ret (Some err, configs, stats)
            else scanFlat_loop cr env dirPath files configs stats
        | None => scanFlat_loop cr env dirPath files configs stats
        end
  end.

Definition scanFlat (cr : ConfigReader) (env : Env) (dirPath : string)
    (configs : gmap string T) (stats : scanStats) : M scan :=
  let* _ := emit (ev_ReadDir dirPath) in
  match os_ReadDir env dirPath with
  | (_, Some err) => ret (Some (ReadDirError err), configs, stats)
  | (files, None) =>
      let* _ := log cr LevelInfo "directory scan complete"
                  [slog_String "dir" dirPath;
                   slog_Int "total_entries" (Z.of_nat (length files))] in
      scanFlat_loop cr env dirPath files configs stats
  end.

(** The function literal that [scanRecursive] hands to [filepath.WalkDir].
    [d] is nil only when [err] is not. *)
Definition walkFn (cr : ConfigReader) (env : Env) (path : string)
    (d : option DirEntry) (err : option error)
    (configs : gmap string T) (stats : scanStats) : M scan :=
  match err with
  | Some err =>
      let* _ := log cr LevelWarn "error accessing path during recursive scan"
                  [slog_String "path" path;
                   slog_String "error" (Error err)] in
      if strictMode cr then ret (Some (StrictAccessError path err), configs, stats)
      else ret (None, configs, inc_errors stats)
  | None =>
      match d with
      | None => panic
      | Some d =>
          if de_IsDir d then ret (None, configs, stats)
          else
            let parentDir := filepath_Dir env path in
            processEntry cr env parentDir d configs stats
      end
  end.

(** [filepath.walkDir]: call the function on the entry; for a directory,
    read it, report a read error through a second call, and walk the
    entries that were read.  The function never returns [fs.SkipDir] or
    [fs.SkipAll] here (its errors come from [fmt.Errorf]), so every error
    it returns ends the walk. *)
Fixpoint walkDir (cr : ConfigReader) (env : Env) (path : string) (d : DirEntry)
    (configs : gmap string T) (stats : scanStats) {struct d} : M scan :=
  match d with
  | mkDirEntry name isDir info (dirs, readErr) =>
      let d := mkDirEntry name isDir info (dirs, readErr) in
      let* '(err, configs, stats) := walkFn cr env path (Some d) None configs stats in
      match err with
      | Some err => ret (Some err, configs, stats)
      | None =>
          if negb isDir then ret (None, configs, stats)
          else
            let* _ := emit (ev_ReadDir path) in
            let* '(err, configs, stats) :=
              match readErr with
              | Some err => walkFn cr env path (Some d) (Some err) configs stats
              | None => ret (None, configs, stats)
              end in
            match err with
            | Some err => ret (Some err, configs, stats)
            | None =>
                (fix walk_entries (dirs : list DirEntry) (configs : gmap string T)
                     (stats : scanStats) {struct dirs} : M scan :=
                   match dirs with
                   | [] => ret (None, configs, stats)
                   | d1 :: dirs =>
                       let path1 := filepath_Join env path (de_Name d1) in
                       let* '(err, configs, stats) :=
                         walkDir cr env path1 d1 configs stats in
                       match err with
                       | Some err => ret (Some err, configs, stats)
                       | None => walk_entries dirs configs stats
                       end
                   end) dirs configs stats
            end
      end
  end.

(** [filepath.WalkDir]. *)
Definition WalkDir (cr : ConfigReader) (env : Env) (root : string)
    (configs : gmap string T) (stats : scanStats) : M scan :=
  let* _ := emit (ev_Lstat root) in
  match os_Lstat env root with
  | inr err => walkFn cr env root None (Some err) configs stats
  | inl info => walkDir cr env root (FileInfoToDirEntry env root info) configs stats
  end.

Definition scanRecursive (cr : ConfigReader) (env : Env) (dirPath : string)
    (configs : gmap string T) (stats : scanStats) : M scan :=
  WalkDir cr env dirPath configs stats.

Definition ReadDirMap (cr : ConfigReader) (env : Env) (dirPath : string)
    : M (option (gmap string T) * option error) :=
  let* dirPath :=
    (if String.eqb dirPath "" then
       let* _ := log cr LevelInfo "using default configuration directory"
                   [slog_String "dir" (defaultPath cr)] in
       ret (defaultPath cr)
     else ret dirPath) in
  let* _ := log cr LevelInfo "scanning configuration directory"
              [slog_String "dir" dirPath;
               slog_Bool "strict_mode" (strictMode cr);
               slog_Bool "recursive" (recursive cr)] in
  let* _ := emit (ev_Stat dirPath) in
  match os_Stat env dirPath with
  | inr err => ret (None, Some (DirInaccessible err))
  | inl info =>
      if negb (fi_IsDir info) then ret (None, Some NotADirectory)
      else
        let configs : gmap string T := ∅ in
        let stats := mkScanStats 0 0 0 in
        let* '(err, configs, stats) :=
          (if recursive cr then scanRecursive cr env dirPath configs stats
           else scanFlat cr env dirPath configs stats) in
        match err with
        | Some err => ret (None, Some err)
        | None =>
            let* _ := log cr LevelInfo "configuration loading complete"
                        [slog_Int "processed" (processed stats);
                         slog_Int "skipped" (skipped stats);
                         slog_Int "errors" (errors stats);
                         slog_Int "total_services" (Z.of_nat (size configs))] in
            let* _ :=
              (if (size configs =? 0)%nat then
                 log cr LevelWarn "no valid configuration files found"
                   [slog_String "dir" dirPath]
               else ret tt) in
            ret (Some configs, None)
        end
  end.

(** An interface value ([any]) that holds a result of [ReadDirMap] or of
    [ReadFile].  The interface is non-nil even when the map or the pointer
    it holds is nil. *)
Inductive any : Type :=
| any_map (configs : option (gmap string T))
| any_ptr (cfg : option T).

(** [ReadDir].  [order] is the order in which the [range] statement visits
    the map, which Go leaves open. *)
Definition ReadDir (order : gmap string T → list (string * T))
    (cr : ConfigReader) (env : Env) (dirPath : string)
    : M (option (list T) * option error) :=
  let* '(configs, err) := ReadDirMap cr env dirPath in
  match err with
  | Some err => ret (None, Some err)
  | None =>
      let result := (order (default ∅ configs)).*2 in
      ret (Some result, None)
  end.

Definition PathInaccessible (err : error) : error :=
  fmt.Errorf_w "path inaccessible: " err.

Definition Read (cr : ConfigReader) (env : Env) (path : string)
    : M (option any * bool * option error) :=
  let path := if String.eqb path "" then defaultPath cr else path in
  let* _ := emit (ev_Stat path) in
  match os_Stat env path with
  | inr err => ret (None, false, Some (PathInaccessible err))
  | inl info =>
      if fi_IsDir info then
        let* _ := log cr LevelInfo "detected directory, using ReadDirMap"
                    [slog_String "path" path] in
        let* '(content, err) := ReadDirMap cr env path in
        ret (Some (any_map content), true, err)
      else
        let* _ := log cr LevelInfo "detected file, using ReadFile"
                    [slog_String "path" path] in
        let* '(content, err) := ReadFile cr env path in
        ret (Some (any_ptr content), false, err)
  end.

End Reader.

Arguments UnmarshalFunc : clear implicits.
Arguments FormatData : clear implicits.
Arguments ConfigReader : clear implicits.
Arguments ConfigReaderOption : clear implicits.
Arguments FormatMap : clear implicits.
Arguments scan : clear implicits.
Arguments any : clear implicits.

(** ** Properties of a reader *)

Section ReaderProperties.

Context {tables : UnicodeTables} {T : Type}.

(** The "unknown" format is the not-found sentinel: it has an entry in the
    catalog, and it owns no extension other than the empty one, neither in
    the extension table nor in its own catalog entry. *)
Definition unknown_is_sentinel (cr : ConfigReader T) : Prop :=
  is_Some (formats cr !! FormatUnknown) ∧
  (∀ ext, supportedExts cr !! ext = Some FormatUnknown → ext = "") ∧
  (∀ fd ext, formats cr !! FormatUnknown = Some fd →
             ext ∈ Extensions fd → ext = "").

(** The options the package offers. *)
Inductive package_option : ConfigReaderOption T → Prop :=
| po_WithLogger l : package_option (WithLogger l)
| po_WithStrictMode b : package_option (WithStrictMode b)
| po_WithMaxFileSize n : package_option (WithMaxFileSize n)
| po_WithDefaultPath p : package_option (WithDefaultPath p)
| po_WithRecursive b : package_option (WithRecursive b).

(** A reader none of whose calls can hit a nil pointer: it has a logger,
    and every format that detection can yield and that is in the catalog
    has a deserializer. *)
Definition callable (cr : ConfigReader T) : Prop :=
  is_Some (logger cr) ∧
  ∀ ext id fd, supportedExts cr !! ext = Some id → id ≠ FormatUnknown →
               formats cr !! id = Some fd → is_Some (Unmarshal fd).

End ReaderProperties.

(** ** A small instance

    Case tables for the letters the examples use, a target type, two toy
    deserializers and a file system, on which the statements below are
    evaluated.  A configuration is a number: the
    deserializers yield the number of bytes read, and the JSON one rejects
    empty input. *)

Module Demo.

Definition yaml : UnmarshalFunc nat := λ data _, (length data, None).

Definition json : UnmarshalFunc nat := λ data v,
  match data with
  | [] => (v, Some (errorString "unexpected end of JSON input"))
  | _ => (length data, None)
  end.

(** Stands for [strings.Map(unicode.ToLower, s)] on the strings of the
    examples: UTF-8 text whose letters are ASCII or from the Latin-1
    Supplement.  The upper-case letters of that block, U+00C0 to U+00DE
    without U+00D7, are the byte 0xC3 followed by 0x80 to 0x9E without
    0x97; the lower-case letter is 0x20 further. *)
Fixpoint lower_latin1 (s : string) : string :=
  match s with
  | EmptyString => EmptyString
  | String c s' =>
      match s' with
      | String b s'' =>
          let n := Z.of_N (N_of_ascii b) in
          if (Z.of_N (N_of_ascii c) =? 195) && (128 <=? n) && (n <=? 158)
             && negb (n =? 151)
          then String c (String (ascii_of_N (N_of_ascii b + 32)) (lower_latin1 s''))
          else String (to_lower_byte c) (lower_latin1 s')
      | EmptyString => String (to_lower_byte c) EmptyString
      end
  end.

#[global] Instance latin1 : UnicodeTables :=
  {| Map_unicode_ToLower := lower_latin1 |}.

Definition reader (opts : list (ConfigReaderOption nat)) : ConfigReader nat :=
  NewConfigReader yaml json opts.

(** A format map that gives the unknown identifier the extension ".txt". *)
Definition text_as_unknown : FormatMap nat :=
  [ (FormatUnknown, mkFormatData "text" [".txt"] (Some yaml)) ].

(** A format registered under a mixed-case extension. *)
Definition FormatTOML : ConfigFormat := 3.
Definition toml_mixed_case : FormatMap nat :=
  [ (FormatTOML, mkFormatData "toml" [".ToMl"] (Some yaml)) ].


Definition Join (dir name : string) : string := dir +:+ "/" +:+ name.

Definition Dir (path : string) : string :=
  let i := LastIndex path "/" in
  if i <=? 0 then "/" else slice_to path i.

Definition file (name : string) (size : Z) : DirEntry :=
  mkDirEntry name false (inl (mkFileInfo name size false)) ([], None).

Definition dir (name : string) (entries : list DirEntry) (err : option error)
    : DirEntry :=
  mkDirEntry name true (inl (mkFileInfo name 4096 true)) (entries, err).

Definition denied : error := errorString "permission denied".
Definition missing : error := errorString "no such file or directory".

Fixpoint assoc {A} (l : list (string * A)) (k : string) : option A :=
  match l with
  | [] => None
  | (k', a) :: l => if String.eqb k k' then Some a else assoc l k
  end.

(** The regular files, with the number of bytes each holds. *)
Definition files : list (string * nat) :=
  [ ("/cfg/mixed/valid.yaml", 3%nat); ("/cfg/mixed/broken.json", 0%nat);
    ("/cfg/dup/svc.yaml", 3%nat); ("/cfg/dup/svc.json", 5%nat);
    ("/cfg/tree/a.yaml", 1%nat); ("/cfg/tree/sub/b.yaml", 2%nat);
    ("/cfg/.yaml", 3%nat); ("/cfg/nested/inner/broken.json", 0%nat) ].

(** The directories, with what listing each returns. *)
Definition dirs : list (string * (list DirEntry * option error)) :=
  [ ("/cfg/mixed", ([file "valid.yaml" 3; file "broken.json" 0], None));
    ("/cfg/dup", ([file "svc.yaml" 3; file "svc.json" 5], None));
    ("/cfg/empty", ([], None));
    ("/cfg/locked", ([], Some denied));
    ("/cfg/tree", ([file "a.yaml" 1;
                    dir "locked" [] (Some denied);
                    dir "sub" [file "b.yaml" 2] None], None));
    ("/cfg/nested", ([dir "inner" [file "broken.json" 0] None], None)) ].

Definition base (path : string) : string :=
  slice_from path (Z.to_nat (LastIndex path "/" + 1)).

Definition stat (path : string) : FileInfo + error :=
  match assoc dirs path, assoc files path with
  | Some _, _ => inl (mkFileInfo (base path) 4096 true)
  | None, Some n => inl (mkFileInfo (base path) (Z.of_nat n) false)
  | None, None => inr missing
  end.

Definition env : Env :=
  {| os_Stat := stat;
     os_Lstat := stat;
     os_ReadDir := λ path, default ([], Some missing) (assoc dirs path);
     os_ReadFile := λ path,
       match assoc files path with
       | Some n => inl (repeat Byte.x00 n)
       | None => inr missing
       end;
     filepath_Join := Join;
     filepath_Dir := Dir |}.

End Demo.

(** ** What a scan does, without the trace

    The scanning functions are compared below with pure functions on the
    result map and the counters.  A scan is a sequence of visits, in
    traversal order; [loaded] and [failure] say how the visit of a file
    ends: with a value under a name, or with the error that strict mode
    reports. *)

Inductive visit :=
| visit_skip
    (* a directory met by the flat scan: counted as skipped *)
| visit_file (parentDir : string) (entry : DirEntry)
    (* an entry handed to [processEntry] *)
| visit_error (path : string) (err : error).
    (* a traversal error handed to the walk function *)

Section ScanFunctions.

Context {tables : UnicodeTables} {T : Type}.
Variable zero : T.
Implicit Types (cr : ConfigReader T) (env : Env).

Definition loaded cr env (parentDir : string) (entry : DirEntry) : option (string * T) :=
  match de_Info entry with
  | inl info =>
      match result (processFile zero cr env
                      (filepath_Join env parentDir (de_Name entry)) info) with
      | Returns (Some cfg, name, None) => Some (name, cfg)
      | _ => None
      end
  | inr _ => None
  end.

Definition failure cr env (parentDir : string) (entry : DirEntry) : option error :=
  match de_Info entry with
  | inl info =>
      match result (processFile zero cr env
                      (filepath_Join env parentDir (de_Name entry)) info) with
      | Returns (_, _, Some err) => Some (StrictProcessError (de_Name entry) err)
      | _ => None
      end
  | inr err => Some (StrictInfoError (de_Name entry) err)
  end.

(** One call of [processEntry]. *)
Definition entry_step cr env (parentDir : string) (entry : DirEntry)
    (configs : gmap string T) (stats : scanStats) : scan T :=
  match failure cr env parentDir entry with
  | Some e =>
      if strictMode cr then (Some e, configs, inc_errors stats)
      else (None, configs, inc_skipped (inc_errors stats))
  | None =>
      match loaded cr env parentDir entry with
      | Some (name, cfg) =>
          match configs !! name with
          | Some _ =>
              if strictMode cr then
                (Some (DuplicateName name (de_Name entry)), configs, stats)
              else (None, <[name := cfg]> configs, inc_processed stats)
          | None => (None, <[name := cfg]> configs, inc_processed stats)
          end
      | None => (None, configs, inc_skipped stats)
      end
  end.

Definition visit_step cr env (v : visit) (configs : gmap string T)
    (stats : scanStats) : scan T :=
  match v with
  | visit_skip => (None, configs, inc_skipped stats)
  | visit_file parentDir entry => entry_step cr env parentDir entry configs stats
  | visit_error path err =>
      if strictMode cr then (Some (StrictAccessError path err), configs, stats)
      else (None, configs, inc_errors stats)
  end.

(** The visits in turn, up to the first that returns an error. *)
Fixpoint steps cr env (vs : list visit) (configs : gmap string T)
    (stats : scanStats) : scan T :=
  match vs with
  | [] => (None, configs, stats)
  | v :: vs =>
      match visit_step cr env v configs stats with
      | (Some err, configs, stats) => (Some err, configs, stats)
      | (None, configs, stats) => steps cr env vs configs stats
      end
  end.

(** The visits of the flat scan of a listing. *)
Definition flat_visits (dirPath : string) (files : list DirEntry) : list visit :=
  map (λ file, if de_IsDir file then visit_skip else visit_file dirPath file) files.

(** The visits of a walk from an entry: a file is visited relative to the
    directory part of its path; a directory whose listing fails brings a
    traversal error, and then the entries that were read. *)
Fixpoint walk_visits env (path : string) (d : DirEntry) {struct d} : list visit :=
  match d with
  | mkDirEntry name isDir info (dirs, readErr) =>
      if isDir then
        match readErr with Some err => [visit_error path err] | None => [] end ++
        (fix entries (dirs : list DirEntry) : list visit :=
           match dirs with
           | [] => []
           | d1 :: dirs =>
               walk_visits env (filepath_Join env path (de_Name d1)) d1 ++ entries dirs
           end) dirs
      else [visit_file (filepath_Dir env path)
                       (mkDirEntry name isDir info (dirs, readErr))]
  end.

Definition entries_visits env (path : string) : list DirEntry → list visit :=
  fix entries (dirs : list DirEntry) : list visit :=
    match dirs with
    | [] => []
    | d1 :: dirs =>
        walk_visits env (filepath_Join env path (de_Name d1)) d1 ++ entries dirs
    end.

(** The visits of [filepath.WalkDir] from a root. *)
Definition root_visits env (root : string) : list visit :=
  match os_Lstat env root with
  | inr err => [visit_error root err]
  | inl info => walk_visits env root (FileInfoToDirEntry env root info)
  end.

(** The values read by a sequence of visits, and the errors met. *)
Definition loads cr env (vs : list visit) : list (string * T) :=
  omap (λ v, match v with
             | visit_file parentDir entry => loaded cr env parentDir entry
             | _ => None
             end) vs.

Definition failures cr env (vs : list visit) : list error :=
  omap (λ v, match v with
             | visit_file parentDir entry => failure cr env parentDir entry
             | visit_error path err => Some (StrictAccessError path err)
             | visit_skip => None
             end) vs.

(** [configs[name] = cfg] for each pair in turn. *)
Definition store_all (l : list (string * T)) (configs : gmap string T) : gmap string T :=
  fold_left (λ m kv, <[kv.1 := kv.2]> m) l configs.

(** Visits that strict mode passes: skipped directories and files that are
    loaded, each under a name that is not yet in the map. *)
Definition clean cr env (pre : list visit) (configs : gmap string T) : Prop :=
  Forall (λ v, match v with
               | visit_skip => True
               | visit_file parentDir entry => failure cr env parentDir entry = None
               | visit_error _ _ => False
               end) pre ∧
  NoDup (loads cr env pre).*1 ∧
  ∀ k, k ∈ (loads cr env pre).*1 → configs !! k = None.

(** The entries of a listing, as [walkDir] walks them. *)
Definition walkEntries cr env (path : string) :=
  fix walk_entries (dirs : list DirEntry) (configs : gmap string T)
      (stats : scanStats) {struct dirs} : M (scan T) :=
    match dirs with
    | [] => ret (None, configs, stats)
    | d1 :: dirs =>
        let path1 := filepath_Join env path (de_Name d1) in
        let* '(err, configs, stats) := walkDir zero cr env path1 d1 configs stats in
        match err with
        | Some err => ret (Some err, configs, stats)
        | None => walk_entries dirs configs stats
        end
    end.

(** The path a facade call works on: the default path for the empty
    argument. *)
Definition effective_path cr (path : string) : string :=
  if String.eqb path "" then defaultPath cr else path.

(** The scan that [ReadDirMap] runs, from the empty map and zero counters:
    the walk in recursive mode; in flat mode the listing, whose failure
    ends the scan at once. *)
Definition scan_end cr env (dirPath : string) : scan T :=
  if recursive cr then steps cr env (root_visits env dirPath) ∅ (mkScanStats 0 0 0)
  else
    match os_ReadDir env dirPath with
    | (_, Some err) => (Some (ReadDirError err), ∅, mkScanStats 0 0 0)
    | (files, None) => steps cr env (flat_visits dirPath files) ∅ (mkScanStats 0 0 0)
    end.

(** The visits of the scan that [ReadDirMap] runs, when the scan starts. *)
Definition scan_visits cr env (dirPath : string) : option (list visit) :=
  if recursive cr then Some (root_visits env dirPath)
  else
    match os_ReadDir env dirPath with
    | (_, Some err) => None
    | (files, None) => Some (flat_visits dirPath files)
    end.

(** What [ReadDirMap] makes of the end of a scan. *)
Definition scan_outcome (s : scan T) : option (gmap string T) * option error :=
  match s with
  | (Some err, _, _) => (None, Some err)
  | (None, configs, _) => (Some configs, None)
  end.

(** Exactly one of the map and the error is nil. *)
Definition one_nil (r : option (gmap string T) * option error) : Prop :=
  (is_Some r.1 ∧ r.2 = None) ∨ (r.1 = None ∧ is_Some r.2).

End ScanFunctions.

(** A counter after [n] increments. *)
Definition add_wrapped (z : Z) (n : nat) : Z := Nat.iter n incr z.

(** An induction principle that reaches the entries of a listing. *)
Fixpoint DirEntry_tree_ind (P : DirEntry → Prop)
    (step : ∀ name isDir info dirs readErr,
        Forall P dirs → P (mkDirEntry name isDir info (dirs, readErr)))
    (d : DirEntry) {struct d} : P d :=
  match d with
  | mkDirEntry name isDir info (dirs, readErr) =>
      step name isDir info dirs readErr
        ((fix all (l : list DirEntry) : Forall P l :=
            match l with
            | [] => @Stdlib.Lists.List.Forall_nil _ P
            | d1 :: l =>
                @Stdlib.Lists.List.Forall_cons _ P d1 l
                  (DirEntry_tree_ind P step d1) (all l)
            end) dirs)
  end.

(** ** Further properties of the registry *)

Section RegistryProperties.

Context {tables : UnicodeTables} {T : Type}.

(** Every identifier that owns an extension has an entry in the catalog. *)
Definition registry_consistent (cr : ConfigReader T) : Prop :=
  ∀ (ext : string) (id : ConfigFormat),
    supportedExts cr !! ext = Some id → is_Some (formats cr !! id).

(** The identifier that a registration leaves as the owner of a
    lower-cased extension: the last format, in iteration order, that
    lists it. *)
Fixpoint owner_of (fm : FormatMap T) (k : string) : option ConfigFormat :=
  match fm with
  | [] => None
  | (id, fd) :: fm =>
      match owner_of fm k with
      | Some id' => Some id'
      | None => if decide (k ∈ ToLower <$> Extensions fd) then Some id else None
      end
  end.

(** The catalog entry that a registration leaves for an identifier: the
    last one, in iteration order, under that identifier. *)
Fixpoint entry_of (fm : FormatMap T) (id : ConfigFormat) : option (FormatData T) :=
  match fm with
  | [] => None
  | (id', fd) :: fm =>
      match entry_of fm id with
      | Some fd' => Some fd'
      | None => if decide (id = id') then Some fd else None
      end
  end.

(** A format map as Go has it (one entry per identifier) in which no two
    formats list the same extension, up to letter case. *)
Definition unambiguous (fm : FormatMap T) : Prop :=
  NoDup fm.*1 ∧
  ∀ id1 fd1 id2 fd2 (k : string),
    (id1, fd1) ∈ fm → (id2, fd2) ∈ fm →
    k ∈ ToLower <$> Extensions fd1 → k ∈ ToLower <$> Extensions fd2 →
    id1 = id2.

End RegistryProperties.

(** ** Further properties of the loader and the facade *)

(** [strings.Contains(s, substr)], to say what a message mentions. *)
Fixpoint Contains (s substr : string) : bool :=
  String.prefix substr s ||
  match s with
  | EmptyString => false
  | String _ s' => Contains s' substr
  end.

(** The calls of [os.ReadFile] in a trace. *)
Definition reads (t : list event) : list string :=
  omap (λ e, match e with ev_ReadFile path => Some path | _ => None end) t.

(** The directories a trace lists or examines for a walk. *)
Definition listings (t : list event) : list string :=
  omap (λ e, match e with
             | ev_ReadDir path | ev_Lstat path => Some path
             | _ => None
             end) t.
Example baseName_app_yaml : baseName "app.yaml" = "app".
Proof. reflexivity. Qed.
Example baseName_app_tar_gz : baseName "app.tar.gz" = "app.tar".
Proof. reflexivity. Qed.
Example baseName_env : baseName ".env" = ".env".
Proof. reflexivity. Qed.
Example baseName_README : baseName "README" = "README".
Proof. reflexivity. Qed.
Example Ext_yaml : Ext "a.b/c.YAML" = ".YAML" ∧ Ext "a.b/c" = "" ∧ Ext ".yaml" = ".yaml".
Proof. repeat split. Qed.

(** ** Facts about the string functions *)

Section StringFacts.

Lemma last_index_from_spec (s : string) (c : ascii) (n : nat) :
  let r := last_index_from s c n in
  (r = -1 ∧ ∀ i, (i < n)%nat → at_ s i ≠ Some c) ∨
  (∃ k, r = Z.of_nat k ∧ (k < n)%nat ∧ at_ s k = Some c ∧
        ∀ i, (k < i < n)%nat → at_ s i ≠ Some c).
Proof.
  induction n as [|n IH]; simpl.
  - left. split; [reflexivity | intros i Hi; lia].
  - destruct (at_ s n) as [a|] eqn:Ha.
    + destruct (Ascii.eqb a c) eqn:Hac.
      * apply Ascii.eqb_eq in Hac. subst a. right. exists n.
        repeat split; [lia | assumption | intros i Hi; lia].
      * apply Ascii.eqb_neq in Hac.
        destruct IH as [[Hr Hno] | (k & Hr & Hk & Hat & Hno)].
        -- left. split; [assumption|]. intros i Hi.
           destruct (decide (i = n)) as [->|Hne]; [congruence | apply Hno; lia].
        -- right. exists k. repeat split; [assumption | lia | assumption |].
           intros i Hi.
           destruct (decide (i = n)) as [->|Hne]; [congruence | apply Hno; lia].
    + destruct IH as [[Hr Hno] | (k & Hr & Hk & Hat & Hno)].
      * left. split; [assumption|]. intros i Hi.
        destruct (decide (i = n)) as [->|Hne]; [congruence | apply Hno; lia].
      * right. exists k. repeat split; [assumption | lia | assumption |].
        intros i Hi.
        destruct (decide (i = n)) as [->|Hne]; [congruence | apply Hno; lia].
Qed.

Lemma at_ge_length (s : string) (i : nat) :
  (String.length s <= i)%nat → at_ s i = None.
Proof.
  revert i. induction s as [|a s IH]; intros [|i] Hi; simpl in *;
    try reflexivity; try lia.
  apply IH. lia.
Qed.

Lemma at_lt_length (s : string) (i : nat) (c : ascii) :
  at_ s i = Some c → (i < String.length s)%nat.
Proof.
  intros H. destruct (le_lt_dec (String.length s) i) as [Hle|Hlt]; [|exact Hlt].
  rewrite at_ge_length in H by exact Hle. discriminate.
Qed.

(** The last index of [c], over the whole string. *)
Lemma LastIndex_spec (s : string) (c : ascii) :
  (LastIndex s c = -1 ∧ lacks c s) ∨
  (∃ k, LastIndex s c = Z.of_nat k ∧ at_ s k = Some c ∧
        ∀ i, (k < i)%nat → at_ s i ≠ Some c).
Proof.
  unfold LastIndex.
  destruct (last_index_from_spec s c (String.length s))
    as [[Hr Hno] | (k & Hr & Hk & Hat & Hno)].
  - left. split; [assumption|]. intros i Hi.
    apply (Hno i); [eapply at_lt_length; eassumption | assumption].
  - right. exists k. repeat split; try assumption.
    intros i Hi Hc. apply (Hno i); [|assumption].
    split; [assumption | eapply at_lt_length; eassumption].
Qed.

Lemma substring_all (s : string) :
  String.substring 0 (String.length s) s = s.
Proof. induction s as [|a s IH]; simpl; [reflexivity | f_equal; exact IH]. Qed.

(** Cutting a string at an index it has. *)
Lemma split_at (s : string) (k : nat) (c : ascii) :
  at_ s k = Some c →
  s = String.substring 0 k s +:+ String c (slice_from s (S k)).
Proof.
  unfold slice_from, at_. revert k.
  induction s as [|a s IH]; intros [|k] H; simpl in *; try discriminate.
  - injection H as ->.
    replace (String.length s - 0)%nat with (String.length s) by lia.
    rewrite substring_all. reflexivity.
  - rewrite (IH k H) at 1. reflexivity.
Qed.

Lemma at_slice_from (s : string) (k i : nat) :
  at_ (slice_from s k) i = if decide (k + i < String.length s)%nat
                           then at_ s (k + i) else None.
Proof.
  unfold slice_from, at_. destruct (decide _) as [Hlt|Hlt].
  - rewrite String.substring_correct1 by lia. f_equal. lia.
  - apply String.substring_correct2. lia.
Qed.

End StringFacts.

(** ** The name deriver *)

Section BaseName.

Lemma baseName_no_dot (filename : string) :
  lacks "." filename → baseName filename = filename.
Proof.
  intros Hno. unfold baseName.
  destruct (LastIndex_spec filename ".") as [[-> _] | (k & _ & Hat & _)].
  - reflexivity.
  - exfalso. exact (Hno k Hat).
Qed.

Lemma baseName_leading_dot (filename : string) :
  at_ filename 0 = Some "."%char →
  (∀ i, i ≠ 0%nat → at_ filename i ≠ Some "."%char) →
  baseName filename = filename.
Proof.
  intros H0 Hno. unfold baseName.
  destruct (LastIndex_spec filename ".") as [[-> _] | (k & -> & Hat & _)].
  - reflexivity.
  - destruct k as [|k]; [reflexivity|].
    exfalso. exact (Hno (S k) ltac:(lia) Hat).
Qed.

Lemma baseName_strips (filename : string) (i : nat) :
  i ≠ 0%nat → at_ filename i = Some "."%char →
  ∃ ext, filename = baseName filename +:+ String "." ext ∧ lacks "." ext.
Proof.
  intros Hi Hat. unfold baseName.
  destruct (LastIndex_spec filename ".") as [[_ Hno] | (k & -> & Hk & Hlast)].
  - exfalso. exact (Hno i Hat).
  - assert (k ≠ 0%nat) as Hk0.
    { intros ->. apply (Hlast i); [lia | assumption]. }
    replace (Z.of_nat k =? -1) with false by (symmetry; apply Z.eqb_neq; lia).
    replace (Z.of_nat k =? 0) with false by (symmetry; apply Z.eqb_neq; lia).
    simpl. unfold slice_to. rewrite Nat2Z.id.
    exists (slice_from filename (S k)). split.
    + apply split_at. exact Hk.
    + intros j Hj. rewrite at_slice_from in Hj.
      case_decide; [|discriminate].
      apply (Hlast (S k + j)%nat); [lia | exact Hj].
Qed.

(** C5. A filename with a "." at an index other than 0 is cut just before
    its last "." (one trailing extension is removed, and what is removed
    holds no further "."); a filename with no "." at all, or whose only
    "." is its first byte, is returned unchanged. *)
Theorem baseName_spec (filename : string) :
  ((∃ i, i ≠ 0%nat ∧ at_ filename i = Some "."%char) →
     ∃ ext, filename = baseName filename +:+ String "." ext ∧ lacks "." ext) ∧
  (lacks "." filename → baseName filename = filename) ∧
  (at_ filename 0 = Some "."%char →
   (∀ i, i ≠ 0%nat → at_ filename i ≠ Some "."%char) →
   baseName filename = filename).
Proof.
  split; [|split].
  - intros (i & Hi & Hat). eapply baseName_strips; eassumption.
  - apply baseName_no_dot.
  - apply baseName_leading_dot.
Qed.

End BaseName.

(** ** Letter case and extensions *)

Section CaseFacts.

Context {tables : UnicodeTables}.

Lemma at_lt_length_Some (s : string) (i : nat) :
  (i < String.length s)%nat → ∃ c, at_ s i = Some c.
Proof.
  unfold at_. revert i.
  induction s as [|a s IH]; intros [|i] Hi; simpl in *; try lia.
  - eexists; reflexivity.
  - apply IH. lia.
Qed.








Lemma append_empty_r (s : string) : s +:+ "" = s.
Proof.
  induction s as [|a s IH]; [reflexivity|].
  change (String a (s +:+ "") = String a s). by rewrite IH.
Qed.

Lemma slice_from_at (s : string) (k : nat) (c : ascii) :
  at_ s k = Some c → slice_from s k = String c (slice_from s (S k)).
Proof.
  unfold slice_from, at_. revert k.
  induction s as [|a s IH]; intros [|k] H; simpl in *; try discriminate.
  - injection H as ->. rewrite Nat.sub_0_r, substring_all.
    reflexivity.
  - exact (IH k H).
Qed.



(** The extension when the only "." is the first byte. *)
Lemma ext_from_leading_dot (s : string) (n : nat) :
  at_ s 0 = Some "."%char →
  (∀ i, i ≠ 0%nat → at_ s i ≠ Some "."%char) →
  lacks "/" s → (0 < n <= String.length s)%nat →
  ext_from s n = s.
Proof.
  intros H0 Hdots Hsep. induction n as [|n IH]; intros Hn; [lia|].
  simpl. destruct (at_ s n) as [c|] eqn:Hc.
  - assert (IsPathSeparator c = false) as ->.
    { unfold IsPathSeparator. apply Ascii.eqb_neq. intros ->. exact (Hsep n Hc). }
    destruct n as [|n].
    + rewrite H0 in Hc. injection Hc as <-. simpl.
      unfold slice_from. rewrite Nat.sub_0_r. apply substring_all.
    + assert (Ascii.eqb c "." = false) as ->.
      { apply Ascii.eqb_neq. intros ->. exact (Hdots (S n) ltac:(lia) Hc). }
      apply IH. lia.
  - exfalso. assert (n < String.length s)%nat as Hlt by lia.
    apply at_lt_length_Some in Hlt as [c Hc']. congruence.
Qed.

Lemma Ext_leading_dot (s : string) :
  at_ s 0 = Some "."%char →
  (∀ i, i ≠ 0%nat → at_ s i ≠ Some "."%char) →
  lacks "/" s →
  Ext s = s.
Proof.
  intros H0 Hdots Hsep. unfold Ext. apply ext_from_leading_dot; try assumption.
  apply at_lt_length in H0. lia.
Qed.

End CaseFacts.

(** ** The format registry *)

Section Registry.

Context {tables : UnicodeTables} {T : Type}.
Implicit Types (cr : ConfigReader T) (fm : FormatMap T) (fd : FormatData T).

Lemma register_exts_lookup (id : ConfigFormat) (exts : list string)
    (m : gmap string ConfigFormat) (k : string) :
  register_exts id exts m !! k =
  if decide (k ∈ ToLower <$> exts) then Some id else m !! k.
Proof.
  unfold register_exts. revert m.
  induction exts as [|e exts IH]; intros m.
  - destruct (decide (k ∈ ToLower <$> [])) as [H|H]; [|reflexivity].
    by apply elem_of_nil in H.
  - change (fold_left (λ m ext, <[ToLower ext:=id]> m) (e :: exts) m)
      with (fold_left (λ m ext, <[ToLower ext:=id]> m) exts (<[ToLower e:=id]> m)).
    rewrite IH, fmap_cons.
    destruct (decide (k ∈ ToLower <$> exts)) as [Hin|Hin];
      destruct (decide (k ∈ ToLower e :: (ToLower <$> exts))) as [Hin'|Hin'];
      try reflexivity.
    + exfalso. apply Hin'. by right.
    + apply elem_of_cons in Hin' as [->|?]; [|done]. by rewrite lookup_insert_eq.
    + rewrite lookup_insert_ne; [reflexivity|]. intros <-. apply Hin'. by left.
Qed.


(** Where an entry of the extension table comes from. *)
Lemma supportedExts_RegisterFormats_Some fm cr (k : string) (id : ConfigFormat) :
  supportedExts (RegisterFormats fm cr) !! k = Some id →
  supportedExts cr !! k = Some id ∨
  ∃ fd, (id, fd) ∈ fm ∧ k ∈ ToLower <$> Extensions fd.
Proof.
  unfold RegisterFormats. simpl. generalize (supportedExts cr) as m.
  induction fm as [|[id' fd'] fm IH]; intros m H; simpl in *.
  - left. exact H.
  - apply IH in H as [H | (fd & Hin & Hk)].
    + rewrite register_exts_lookup in H. destruct (decide _) as [Hk|Hk].
      * injection H as <-. right. exists fd'. split; [left | exact Hk].
      * left. exact H.
    + right. exists fd. split; [right; exact Hin | exact Hk].
Qed.

Lemma maps_Copy_is_Some (dst : gmap ConfigFormat (FormatData T)) fm (id : ConfigFormat) :
  is_Some (dst !! id) → is_Some (maps_Copy dst fm !! id).
Proof.
  unfold maps_Copy. revert dst.
  induction fm as [|[id' fd'] fm IH]; intros dst H; simpl; [exact H|].
  apply IH. destruct (decide (id' = id)) as [->|Hne].
  - rewrite lookup_insert_eq. eauto.
  - rewrite lookup_insert_ne by exact Hne. exact H.
Qed.

Lemma maps_Copy_Some (dst : gmap ConfigFormat (FormatData T)) fm (id : ConfigFormat) fd :
  maps_Copy dst fm !! id = Some fd → dst !! id = Some fd ∨ (id, fd) ∈ fm.
Proof.
  unfold maps_Copy. revert dst.
  induction fm as [|[id' fd'] fm IH]; intros dst H; simpl in *; [by left|].
  apply IH in H as [H | H]; [|right; right; exact H].
  destruct (decide (id' = id)) as [->|Hne].
  - rewrite lookup_insert_eq in H. injection H as ->. right. left.
  - rewrite lookup_insert_ne in H by exact Hne. left. exact H.
Qed.

Lemma package_option_registry (opt : ConfigReaderOption T) cr :
  package_option opt →
  supportedExts (opt cr) = supportedExts cr ∧ formats (opt cr) = formats cr.
Proof. intros []; split; reflexivity. Qed.

Lemma package_options_registry (opts : list (ConfigReaderOption T)) cr :
  Forall package_option opts →
  supportedExts (fold_left (λ cr opt, opt cr) opts cr) = supportedExts cr ∧
  formats (fold_left (λ cr opt, opt cr) opts cr) = formats cr.
Proof.
  intros H. revert cr. induction H as [|opt opts Hopt _ IH]; intros cr; simpl.
  - split; reflexivity.
  - destruct (IH (opt cr)) as [-> ->]. by apply package_option_registry.
Qed.

(** Registration keeps the sentinel when the registered map gives the
    unknown identifier no extension other than the empty one. *)
Lemma RegisterFormats_keeps_sentinel fm cr :
  unknown_is_sentinel cr →
  (∀ fd ext, (FormatUnknown, fd) ∈ fm → ext ∈ Extensions fd → ext = "") →
  unknown_is_sentinel (RegisterFormats fm cr).
Proof.
  intros (Hex & Hexts & Hcat) Hfm. split; [|split].
  - by apply maps_Copy_is_Some.
  - intros ext H.
    apply supportedExts_RegisterFormats_Some in H as [H | (fd & Hin & Hk)].
    + by apply Hexts.
    + apply list_elem_of_fmap in Hk as (e & -> & He).
      by rewrite (Hfm fd e Hin He).
  - intros fd ext H Hext. simpl in H.
    apply maps_Copy_Some in H as [H | H]; [by eapply Hcat | by eapply Hfm].
Qed.

Lemma detectFormat_not_found cr (filename : string) :
  supportedExts cr !! ToLower (Ext filename) = None →
  detectFormat cr filename = FormatUnknown.
Proof. unfold detectFormat. by intros ->. Qed.



End Registry.

(** ** Computations *)

Section Computations.

Lemma result_bind {A B} (m : M A) (k : A → M B) :
  result (bind m k) =
  match result m with Returns a => result (k a) | Panics => Panics end.
Proof.
  destruct m as [t [a|]]; simpl; [|reflexivity].
  destruct (k a); reflexivity.
Qed.

Lemma trace_bind {A B} (m : M A) (k : A → M B) :
  trace (bind m k) =
  match result m with
  | Returns a => trace m ++ trace (k a)
  | Panics => trace m
  end.
Proof.
  destruct m as [t [a|]]; simpl; [|reflexivity].
  destruct (k a); reflexivity.
Qed.

Lemma result_ret {A} (a : A) : result (ret a) = Returns a.
Proof. reflexivity. Qed.

Lemma result_emit (e : event) : result (emit e) = Returns tt.
Proof. reflexivity. Qed.

Lemma result_log {T} (cr : ConfigReader T) level msg attrs :
  is_Some (logger cr) → result (log cr level msg attrs) = Returns tt.
Proof. intros [l Hl]. unfold log. rewrite Hl. reflexivity. Qed.

Lemma log_returns {T} (cr : ConfigReader T) level msg attrs (u : unit) :
  result (log cr level msg attrs) = Returns u → is_Some (logger cr).
Proof. unfold log. destruct (logger cr); [eauto | discriminate]. Qed.

End Computations.

Ltac mstep :=
  repeat first
    [ rewrite result_bind
    | rewrite result_ret
    | rewrite result_emit
    | rewrite result_log by assumption ].

(** ** The single-file loader *)

Section Loader.

Context {tables : UnicodeTables} {T : Type}.
Variable zero : T.
Implicit Types (cr : ConfigReader T) (env : Env) (info : FileInfo).

Lemma processFile_directory cr env fullPath info :
  fi_IsDir info = true →
  processFile zero cr env fullPath info =
  ret (None, baseName (fi_Name info), Some IsDirectory).
Proof. intros H. unfold processFile. rewrite H. reflexivity. Qed.

Lemma processFile_too_large cr env fullPath info :
  fi_IsDir info = false → maxFileSize cr < fi_Size info →
  processFile zero cr env fullPath info =
  ret (None, baseName (fi_Name info),
       Some (TooLarge (fi_Size info) (maxFileSize cr))).
Proof.
  intros Hd Hs. unfold processFile. rewrite Hd.
  apply Z.ltb_lt in Hs. rewrite Hs. reflexivity.
Qed.

Lemma processFile_unsupported cr env fullPath info :
  fi_IsDir info = false → fi_Size info <= maxFileSize cr →
  detectFormat cr (fi_Name info) = FormatUnknown →
  processFile zero cr env fullPath info =
  ret (None, baseName (fi_Name info), Some UnsupportedFormat).
Proof.
  intros Hd Hs Hf. unfold processFile. rewrite Hd.
  replace (maxFileSize cr <? fi_Size info) with false
    by (symmetry; apply Z.ltb_ge; exact Hs).
  rewrite Hf. reflexivity.
Qed.

(** Past the three checks the file is read and parsed. *)
Lemma processFile_reads cr env fullPath info :
  fi_IsDir info = false → fi_Size info <= maxFileSize cr →
  detectFormat cr (fi_Name info) ≠ FormatUnknown →
  processFile zero cr env fullPath info =
  let* '(cfg, err) := readAndParseFile cr env fullPath
                        (detectFormat cr (fi_Name info)) zero in
  match err with
  | Some err => ret (None, "", Some err)
  | None => ret (Some cfg, baseName (fi_Name info), None)
  end.
Proof.
  intros Hd Hs Hf. unfold processFile. rewrite Hd.
  replace (maxFileSize cr <? fi_Size info) with false
    by (symmetry; apply Z.ltb_ge; exact Hs).
  apply Z.eqb_neq in Hf. rewrite Hf. reflexivity.
Qed.

Lemma readAndParseFile_read_error cr env fullPath format (target : T) err :
  is_Some (logger cr) → os_ReadFile env fullPath = inr err →
  result (readAndParseFile cr env fullPath format target) =
  Returns (target, Some (ReadError err)).
Proof.
  intros Hl Hr. unfold readAndParseFile. mstep. rewrite Hr. reflexivity.
Qed.

Lemma readAndParseFile_unmarshal cr env fullPath format (target : T)
    data fd unmarshal :
  is_Some (logger cr) → os_ReadFile env fullPath = inl data →
  formats cr !! format = Some fd → Unmarshal fd = Some unmarshal →
  result (readAndParseFile cr env fullPath format target) =
  Returns (match unmarshal data target with
           | (v, Some err) => (v, Some (ParseError (Name fd) err))
           | (v, None) => (v, None)
           end).
Proof.
  intros Hl Hr Hf Hu. unfold readAndParseFile. mstep. rewrite Hr. mstep.
  unfold format_entry. rewrite Hf. simpl. rewrite Hu.
  destruct (unmarshal data target) as [v [err|]]; mstep; reflexivity.
Qed.

Lemma readAndParseFile_unregistered cr env fullPath format (target : T) data :
  is_Some (logger cr) → os_ReadFile env fullPath = inl data →
  formats cr !! format = None →
  result (readAndParseFile cr env fullPath format target) =
  Returns (target, Some (NoRegisteredFormat "")).
Proof.
  intros Hl Hr Hf. unfold readAndParseFile. mstep. rewrite Hr. mstep.
  unfold format_entry. rewrite Hf. reflexivity.
Qed.

(** What [readAndParseFile] can return. *)
Lemma readAndParseFile_returns cr env fullPath format (target v : T) err :
  result (readAndParseFile cr env fullPath format target) = Returns (v, Some err) →
  (∃ e, err = ReadError e) ∨ (∃ n, err = NoRegisteredFormat n) ∨
  (∃ n e, err = ParseError n e).
Proof.
  unfold readAndParseFile. rewrite result_bind.
  destruct (result (log _ _ _ _)) as [[]|]; [|discriminate].
  mstep. destruct (os_ReadFile env fullPath) as [data|e].
  - rewrite result_bind. destruct (result (log _ _ _ _)) as [[]|]; [|discriminate].
    destruct (format_entry cr format) as [fd [|]]; simpl.
    + destruct (Unmarshal fd) as [u|]; [|discriminate].
      destruct (u data target) as [v' [e|]].
      * intros [= <- <-]. right. right. eauto.
      * rewrite result_bind. destruct (result (log _ _ _ _)); discriminate.
    + intros [= <- <-]. right. left. eauto.
  - intros [= <- <-]. left. eauto.
Qed.

Lemma detectFormat_Some cr (filename : string) :
  detectFormat cr filename ≠ FormatUnknown →
  supportedExts cr !! ToLower (Ext filename) = Some (detectFormat cr filename).
Proof.
  unfold detectFormat. destruct (supportedExts cr !! _); [reflexivity | congruence].
Qed.

Lemma readAndParseFile_total cr env fullPath (filename : string) (target : T) :
  callable cr → detectFormat cr filename ≠ FormatUnknown →
  ∃ r, result (readAndParseFile cr env fullPath (detectFormat cr filename) target)
       = Returns r.
Proof.
  intros [Hl Hu] Hf.
  destruct (os_ReadFile env fullPath) as [data|e] eqn:Hr.
  - destruct (formats cr !! detectFormat cr filename) as [fd|] eqn:Hfd.
    + destruct (Hu _ _ fd (detectFormat_Some cr filename Hf) Hf Hfd) as [u Hu'].
      erewrite readAndParseFile_unmarshal by eassumption. eauto.
    + erewrite readAndParseFile_unregistered by eassumption. eauto.
  - erewrite readAndParseFile_read_error by eassumption. eauto.
Qed.

(** With a callable reader [processFile] returns. *)
Lemma processFile_total cr env fullPath info :
  callable cr → ∃ r, result (processFile zero cr env fullPath info) = Returns r.
Proof.
  intros Hc. destruct (fi_IsDir info) eqn:Hd.
  { rewrite processFile_directory by exact Hd. eauto. }
  destruct (Z_lt_le_dec (maxFileSize cr) (fi_Size info)) as [Hs|Hs].
  { rewrite processFile_too_large by assumption. eauto. }
  destruct (decide (detectFormat cr (fi_Name info) = FormatUnknown)) as [Hf|Hf].
  { rewrite processFile_unsupported by assumption. eauto. }
  rewrite processFile_reads by assumption. rewrite result_bind.
  destruct (readAndParseFile_total cr env fullPath (fi_Name info) zero Hc Hf)
    as [[v [e|]] ->]; mstep; eauto.
Qed.

(** A returned value comes with no error and with the derived name; a
    returned error comes with no value. *)
Lemma processFile_returns cr env fullPath info cfg (name : string) err :
  result (processFile zero cr env fullPath info) = Returns (cfg, name, err) →
  (err = None → name = baseName (fi_Name info) ∧ is_Some cfg) ∧
  (is_Some err → cfg = None).
Proof.
  unfold processFile.
  destruct (fi_IsDir info).
  { intros [= <- <- <-]. split; [discriminate | reflexivity]. }
  destruct (maxFileSize cr <? fi_Size info).
  { intros [= <- <- <-]. split; [discriminate | reflexivity]. }
  destruct (detectFormat cr (fi_Name info) =? FormatUnknown).
  { intros [= <- <- <-]. split; [discriminate | reflexivity]. }
  rewrite result_bind.
  destruct (result (readAndParseFile _ _ _ _ _)) as [[v [e|]]|]; [| |discriminate].
  - intros [= <- <- <-]. split; [discriminate | reflexivity].
  - intros [= <- <- <-]. split; [eauto | intros [? [=]]].
Qed.

End Loader.

(** ** Format detection and the sentinel *)

Section Detection.

Context {tables : UnicodeTables} {T : Type}.
Variable zero : T.
Variables yaml_Unmarshal json_Unmarshal : UnmarshalFunc T.
Implicit Types (cr : ConfigReader T) (fm : FormatMap T) (fd : FormatData T).

Lemma NewConfigReader_sentinel (opts : list (ConfigReaderOption T)) :
  Forall package_option opts →
  unknown_is_sentinel (NewConfigReader yaml_Unmarshal json_Unmarshal opts).
Proof.
  intros Hopts. unfold NewConfigReader.
  set (cr0 := mkConfigReader _ _ _ _ _ _ _).
  destruct (package_options_registry opts
              (RegisterFormats (DefaultFormats yaml_Unmarshal json_Unmarshal) cr0)
              Hopts) as [Hs Hf].
  unfold unknown_is_sentinel. rewrite Hs, Hf. split; [|split].
  - simpl. eexists. reflexivity.
  - intros ext H.
    apply supportedExts_RegisterFormats_Some in H as [H | (fd & Hin & Hk)].
    + simpl in H. rewrite lookup_empty in H. discriminate.
    + unfold DefaultFormats in Hin.
      repeat (apply elem_of_cons in Hin as [Hin|Hin]); try by apply elem_of_nil in Hin.
      all: try discriminate.
      injection Hin as ->. simpl in Hk.
      apply elem_of_cons in Hk as [->|Hk]; [reflexivity | by apply elem_of_nil in Hk].
  - intros fd ext H Hext. simpl in H. vm_compute in H. injection H as <-.
    simpl in Hext.
    apply elem_of_cons in Hext as [->|Hext]; [reflexivity | by apply elem_of_nil in Hext].
Qed.


(** C8, as the code has it.  A reader built by [NewConfigReader] with the
    package's options has the "unknown" format in its catalog, owning only
    the empty extension.  [RegisterFormats] keeps that when the registered
    map gives the unknown identifier no other extension; it never removes
    the catalog entry; and detection yields the unknown format when the
    extension has no owner. *)
Theorem unknown_sentinel_invariant (opts : list (ConfigReaderOption T)) fm cr
    (filename : string) :
  (Forall package_option opts →
   unknown_is_sentinel (NewConfigReader yaml_Unmarshal json_Unmarshal opts)) ∧
  (unknown_is_sentinel cr →
   (∀ fd ext, (FormatUnknown, fd) ∈ fm → ext ∈ Extensions fd → ext = "") →
   unknown_is_sentinel (RegisterFormats fm cr)) ∧
  (is_Some (formats cr !! FormatUnknown) →
   is_Some (formats (RegisterFormats fm cr) !! FormatUnknown)) ∧
  (supportedExts cr !! ToLower (Ext filename) = None →
   detectFormat cr filename = FormatUnknown).
Proof.
  split; [|split; [|split]].
  - apply NewConfigReader_sentinel.
  - apply RegisterFormats_keeps_sentinel.
  - apply maps_Copy_is_Some.
  - apply detectFormat_not_found.
Qed.

Lemma leading_dot_nonempty (s : string) : at_ s 0 = Some "."%char → s ≠ "".
Proof. intros H ->. discriminate. Qed.

(** C1, as the code has it.  For a filename whose only "." is its first
    byte, the extension is the whole filename: detection looks the
    lower-cased filename up, and yields the unknown format only when that
    has no owner other than the unknown format.  For such a file that is
    not a directory and within the size limit, [processFile] fails with
    [UnsupportedFormat] exactly in that case. *)
Theorem detect_leading_dot cr env (fullPath : string) (info : FileInfo) :
  at_ (fi_Name info) 0 = Some "."%char →
  (∀ i, i ≠ 0%nat → at_ (fi_Name info) i ≠ Some "."%char) →
  lacks "/" (fi_Name info) →
  Ext (fi_Name info) = fi_Name info ∧
  detectFormat cr (fi_Name info) =
    default FormatUnknown (supportedExts cr !! ToLower (fi_Name info)) ∧
  (fi_IsDir info = false → fi_Size info <= maxFileSize cr →
   (detectFormat cr (fi_Name info) = FormatUnknown ↔
    result (processFile zero cr env fullPath info) =
      Returns (None, baseName (fi_Name info), Some UnsupportedFormat))).
Proof.
  intros H0 Hdots Hsep.
  pose proof (Ext_leading_dot _ H0 Hdots Hsep) as HExt.
  split; [exact HExt|]. split.
  - unfold detectFormat. rewrite HExt.
    destruct (supportedExts cr !! _); reflexivity.
  - intros Hd Hs. split.
    + intros Hf. rewrite processFile_unsupported by assumption. reflexivity.
    + intros Hr.
      destruct (decide (detectFormat cr (fi_Name info) = FormatUnknown))
        as [Hf|Hf]; [exact Hf | exfalso].
      rewrite processFile_reads in Hr by assumption.
      rewrite result_bind in Hr.
      destruct (result (readAndParseFile _ _ _ _ _)) as [[v [e|]]|];
        [| |discriminate].
      * injection Hr as Hname _.
        rewrite baseName_leading_dot in Hname by assumption.
        symmetry in Hname. by apply leading_dot_nonempty in Hname.
      * discriminate.
Qed.

End Detection.

(** *** On the instance *)

(** Discharges [∀ i, ... at_ s i ≠ Some c] for a literal [s]. *)
Ltac literal_bytes :=
  let i := fresh "i" in
  unfold lacks; intros i;
  do 16 (try (destruct i as [|i];
              [simpl; first [congruence | intros; congruence | intros; lia]|]));
  simpl; first [congruence | intros; congruence].


Lemma unknown_sentinel_invariant_witness :
  unknown_is_sentinel (Demo.reader [WithStrictMode true]) ∧
  unknown_is_sentinel (RegisterFormats Demo.toml_mixed_case (Demo.reader [])) ∧
  is_Some (formats (RegisterFormats Demo.toml_mixed_case (Demo.reader []))
             !! FormatUnknown) ∧
  detectFormat (Demo.reader []) "notes.txt" = FormatUnknown.
Proof.
  destruct (unknown_sentinel_invariant Demo.yaml Demo.json [WithStrictMode true]
              Demo.toml_mixed_case (Demo.reader []) "notes.txt")
    as (H1 & H2 & H3 & H4).
  assert (unknown_is_sentinel (Demo.reader [])) as Hbase.
  { refine (proj1 (unknown_sentinel_invariant Demo.yaml Demo.json []
                     Demo.toml_mixed_case (Demo.reader []) "notes.txt") _).
    constructor. }
  split; [|split; [|split]].
  - apply H1. repeat constructor.
  - apply H2; [exact Hbase|].
    intros fd ext Hin. apply list_elem_of_singleton in Hin. discriminate.
  - apply H3. apply Hbase.
  - apply H4. vm_compute. reflexivity.
Defined.

(** C8 as stated fails: registering a map that gives the unknown identifier
    the extension ".txt" makes the unknown format own a real extension. *)
Lemma unknown_sentinel_counterexample :
  unknown_is_sentinel (Demo.reader []) ∧
  ¬ unknown_is_sentinel (RegisterFormats Demo.text_as_unknown (Demo.reader [])).
Proof.
  split.
  - apply NewConfigReader_sentinel. constructor.
  - intros (_ & H & _). specialize (H ".txt").
    assert (".txt" = "") as E; [|discriminate E].
    apply H. vm_compute. reflexivity.
Qed.

Lemma detect_leading_dot_witness :
  Ext ".yaml" = ".yaml" ∧
  detectFormat (Demo.reader []) ".yaml" = FormatYAML ∧
  detectFormat (Demo.reader []) ".env" = FormatUnknown ∧
  result (processFile 0%nat (Demo.reader []) Demo.env "/cfg/.env"
            (mkFileInfo ".env" 12 false)) =
    Returns (None, ".env", Some UnsupportedFormat).
Proof.
  destruct (detect_leading_dot 0%nat (Demo.reader []) Demo.env "/cfg/.yaml"
              (mkFileInfo ".yaml" 3 false)) as (H1 & H2 & _);
    [reflexivity | literal_bytes | literal_bytes |].
  destruct (detect_leading_dot 0%nat (Demo.reader []) Demo.env "/cfg/.env"
              (mkFileInfo ".env" 12 false)) as (_ & H3 & H4);
    [reflexivity | literal_bytes | literal_bytes |].
  split; [exact H1|]. split; [exact H2|]. split; [exact H3|].
  apply H4; [reflexivity | vm_compute; discriminate | exact H3].
Defined.

(** C1 as stated fails: ".yaml" has its only "." at index 0, yet it is
    detected as YAML, and [processFile] reads and parses it instead of
    failing with [UnsupportedFormat]. *)
Lemma detect_leading_dot_counterexample :
  at_ ".yaml" 0 = Some "."%char ∧
  (∀ i, i ≠ 0%nat → at_ ".yaml" i ≠ Some "."%char) ∧
  detectFormat (Demo.reader []) ".yaml" = FormatYAML ∧
  FormatYAML ≠ FormatUnknown ∧
  result (processFile 0%nat (Demo.reader []) Demo.env "/cfg/.yaml"
            (mkFileInfo ".yaml" 3 false)) =
    Returns (Some 3%nat, ".yaml", None).
Proof.
  split; [reflexivity|]. split; [literal_bytes|].
  split; [vm_compute; reflexivity|]. split; [discriminate|].
  vm_compute. reflexivity.
Qed.

(** ** The name deriver and the loader: the statements *)

Lemma baseName_spec_witness :
  (∃ ext, "app.tar.gz" = baseName "app.tar.gz" +:+ String "." ext ∧ lacks "." ext) ∧
  baseName "README" = "README" ∧
  baseName ".env" = ".env".
Proof.
  split; [|split].
  - apply (baseName_spec "app.tar.gz"). exists 3%nat. split; [lia | reflexivity].
  - apply (proj1 (proj2 (baseName_spec "README"))). literal_bytes.
  - apply (proj2 (proj2 (baseName_spec ".env"))); [reflexivity | literal_bytes].
Defined.

Section LoaderStatements.

Context {tables : UnicodeTables} {T : Type}.
Variable zero : T.
Implicit Types (cr : ConfigReader T) (env : Env) (info : FileInfo).

Lemma TooLarge_not_read (e : error) (size max : Z) : ReadError e ≠ TooLarge size max.
Proof. discriminate. Qed.

Lemma TooLarge_not_parse (n : string) (e : error) (size max : Z) :
  ParseError n e ≠ TooLarge size max.
Proof. discriminate. Qed.

Lemma TooLarge_not_unregistered (n : string) (size max : Z) :
  NoRegisteredFormat n ≠ TooLarge size max.
Proof. unfold NoRegisteredFormat, TooLarge, fmt.Errorf. simpl. discriminate. Qed.

Lemma TooLarge_not_unsupported (size max : Z) : UnsupportedFormat ≠ TooLarge size max.
Proof. unfold UnsupportedFormat, TooLarge, fmt.Errorf. simpl. discriminate. Qed.

(** C6. A file (not a directory) whose reported size exceeds the maximum
    is rejected with [TooLarge], whatever the file system holds, and the
    call leaves no [os.ReadFile] in its trace; a file whose size does not
    exceed the maximum is never rejected with [TooLarge]. *)
Theorem size_ceiling cr env (fullPath : string) info :
  fi_IsDir info = false →
  (maxFileSize cr < fi_Size info →
   result (processFile zero cr env fullPath info) =
     Returns (None, baseName (fi_Name info),
              Some (TooLarge (fi_Size info) (maxFileSize cr))) ∧
   ∀ path, ev_ReadFile path ∉ trace (processFile zero cr env fullPath info)) ∧
  (fi_Size info <= maxFileSize cr →
   ∀ cfg (name : string) err size max,
     result (processFile zero cr env fullPath info) = Returns (cfg, name, Some err) →
     err ≠ TooLarge size max).
Proof.
  intros Hd. split.
  - intros Hs. rewrite processFile_too_large by assumption.
    split; [reflexivity|]. intros path H. simpl in H. by apply elem_of_nil in H.
  - intros Hs cfg name err size max Hr.
    destruct (decide (detectFormat cr (fi_Name info) = FormatUnknown)) as [Hf|Hf].
    + rewrite processFile_unsupported in Hr by assumption.
      injection Hr as _ _ <-. apply TooLarge_not_unsupported.
    + rewrite processFile_reads in Hr by assumption.
      rewrite result_bind in Hr.
      destruct (result (readAndParseFile _ _ _ _ _)) as [[v [e|]]|] eqn:Hp;
        [| discriminate | discriminate].
      injection Hr as _ _ <-.
      apply readAndParseFile_returns in Hp as [[e' ->] | [[n ->] | (n & e' & ->)]].
      * apply TooLarge_not_read.
      * apply TooLarge_not_unregistered.
      * apply TooLarge_not_parse.
Qed.

(** C9. [processFile] returns the derived name on the [IsDirectory],
    [TooLarge] and [UnsupportedFormat] paths and whenever it returns
    without an error (and then with a value); it returns the empty name,
    and no value, whenever it returns a [ParseError].  The last part
    gives the two ways the call ends once the file has been read and a
    deserializer found: the value under the derived name, or the
    [ParseError] under the empty name. *)
Theorem processFile_name cr env (fullPath : string) info :
  (fi_IsDir info = true →
   result (processFile zero cr env fullPath info) =
     Returns (None, baseName (fi_Name info), Some IsDirectory)) ∧
  (fi_IsDir info = false → maxFileSize cr < fi_Size info →
   result (processFile zero cr env fullPath info) =
     Returns (None, baseName (fi_Name info),
              Some (TooLarge (fi_Size info) (maxFileSize cr)))) ∧
  (fi_IsDir info = false → fi_Size info <= maxFileSize cr →
   detectFormat cr (fi_Name info) = FormatUnknown →
   result (processFile zero cr env fullPath info) =
     Returns (None, baseName (fi_Name info), Some UnsupportedFormat)) ∧
  (∀ cfg (name : string),
     result (processFile zero cr env fullPath info) = Returns (cfg, name, None) →
     name = baseName (fi_Name info) ∧ is_Some cfg) ∧
  (∀ cfg (name n : string) e,
     result (processFile zero cr env fullPath info)
       = Returns (cfg, name, Some (ParseError n e)) →
     name = "" ∧ cfg = None) ∧
  (∀ data fd unmarshal,
     fi_IsDir info = false → fi_Size info <= maxFileSize cr →
     detectFormat cr (fi_Name info) ≠ FormatUnknown →
     is_Some (logger cr) →
     os_ReadFile env fullPath = inl data →
     formats cr !! detectFormat cr (fi_Name info) = Some fd →
     Unmarshal fd = Some unmarshal →
     result (processFile zero cr env fullPath info) =
       Returns (match unmarshal data zero with
                | (v, None) => (Some v, baseName (fi_Name info), None)
                | (_, Some e) => (None, "", Some (ParseError (Name fd) e))
                end)).
Proof.
  split; [|split; [|split; [|split; [|split]]]].
  - intros Hd. by rewrite processFile_directory.
  - intros Hd Hs. by rewrite processFile_too_large.
  - intros Hd Hs Hf. by rewrite processFile_unsupported.
  - intros cfg name Hr. by apply (processFile_returns zero _ _ _ _ _ _ _ Hr).
  - intros cfg name n e Hr.
    split; [|apply (processFile_returns zero _ _ _ _ _ _ _ Hr); eauto].
    revert Hr. unfold processFile.
    destruct (fi_IsDir info); [discriminate|].
    destruct (maxFileSize cr <? fi_Size info); [discriminate|].
    destruct (detectFormat cr (fi_Name info) =? FormatUnknown); [discriminate|].
    rewrite result_bind.
    destruct (result (readAndParseFile _ _ _ _ _)) as [[v [e'|]]|];
      [| discriminate | discriminate].
    by intros [= _ <- _].
  - intros data fd unmarshal Hd Hs Hf Hl Hr Hfd Hu.
    rewrite processFile_reads by assumption. rewrite result_bind.
    erewrite readAndParseFile_unmarshal by eassumption.
    destruct (unmarshal data zero) as [v [e|]]; reflexivity.
Qed.

End LoaderStatements.

Lemma size_ceiling_witness :
  result (processFile 0%nat (Demo.reader [WithMaxFileSize 4]) Demo.env
            "/cfg/dup/svc.json" (mkFileInfo "svc.json" 5 false)) =
    Returns (None, "svc", Some (TooLarge 5 4)) ∧
  (∀ path, ev_ReadFile path ∉
     trace (processFile 0%nat (Demo.reader [WithMaxFileSize 4]) Demo.env
              "/cfg/dup/svc.json" (mkFileInfo "svc.json" 5 false))) ∧
  Error (TooLarge 5 4) = "file size 5 exceeds maximum allowed size 4" ∧
  (∀ cfg (name : string) err size max,
     result (processFile 0%nat (Demo.reader [WithMaxFileSize 5]) Demo.env
               "/cfg/dup/svc.json" (mkFileInfo "svc.json" 5 false))
       = Returns (cfg, name, Some err) →
     err ≠ TooLarge size max).
Proof.
  destruct (size_ceiling 0%nat (Demo.reader [WithMaxFileSize 4]) Demo.env
              "/cfg/dup/svc.json" (mkFileInfo "svc.json" 5 false) eq_refl)
    as [H1 _].
  destruct (size_ceiling 0%nat (Demo.reader [WithMaxFileSize 5]) Demo.env
              "/cfg/dup/svc.json" (mkFileInfo "svc.json" 5 false) eq_refl)
    as [_ H2].
  destruct H1 as [H1 H1']; [simpl; lia|].
  split; [exact H1|]. split; [exact H1'|]. split; [vm_compute; reflexivity|].
  apply H2. simpl. lia.
Defined.

Lemma processFile_name_witness :
  result (processFile 0%nat (Demo.reader []) Demo.env "/cfg/mixed"
            (mkFileInfo "mixed" 4096 true)) =
    Returns (None, "mixed", Some IsDirectory) ∧
  result (processFile 0%nat (Demo.reader [WithMaxFileSize 2]) Demo.env
            "/cfg/mixed/valid.yaml" (mkFileInfo "valid.yaml" 3 false)) =
    Returns (None, "valid", Some (TooLarge 3 2)) ∧
  result (processFile 0%nat (Demo.reader []) Demo.env "/cfg/notes.txt"
            (mkFileInfo "notes.txt" 3 false)) =
    Returns (None, "notes", Some UnsupportedFormat) ∧
  result (processFile 0%nat (Demo.reader []) Demo.env "/cfg/mixed/valid.yaml"
            (mkFileInfo "valid.yaml" 3 false)) =
    Returns (Some 3%nat, "valid", None) ∧
  result (processFile 0%nat (Demo.reader []) Demo.env "/cfg/mixed/broken.json"
            (mkFileInfo "broken.json" 0 false)) =
    Returns (None, "", Some (ParseError "json"
                               (errorString "unexpected end of JSON input"))).
Proof.
  split; [|split; [|split; [|split]]].
  - apply (processFile_name 0%nat (Demo.reader []) Demo.env "/cfg/mixed"
             (mkFileInfo "mixed" 4096 true)). reflexivity.
  - apply (processFile_name 0%nat (Demo.reader [WithMaxFileSize 2]) Demo.env
             "/cfg/mixed/valid.yaml" (mkFileInfo "valid.yaml" 3 false));
      [reflexivity | simpl; lia].
  - apply (processFile_name 0%nat (Demo.reader []) Demo.env "/cfg/notes.txt"
             (mkFileInfo "notes.txt" 3 false));
      [reflexivity | vm_compute; discriminate | vm_compute; reflexivity].
  - destruct (processFile_name 0%nat (Demo.reader []) Demo.env
                "/cfg/mixed/valid.yaml" (mkFileInfo "valid.yaml" 3 false))
      as (_ & _ & _ & _ & _ & H).
    apply (H (repeat Byte.x00 3) (mkFormatData "yaml" [".yaml"; ".yml"] (Some Demo.yaml))
             Demo.yaml);
      try (vm_compute; (reflexivity || discriminate || eauto)).
  - destruct (processFile_name 0%nat (Demo.reader []) Demo.env
                "/cfg/mixed/broken.json" (mkFileInfo "broken.json" 0 false))
      as (_ & _ & _ & _ & _ & H).
    apply (H [] (mkFormatData "json" [".json"] (Some Demo.json)) Demo.json);
      try (vm_compute; (reflexivity || discriminate || eauto)).
Defined.

(** ** The directory scanner *)

Section Counters.

Lemma wrap64_small (z : Z) : - 2 ^ 63 <= z < 2 ^ 63 → wrap64 z = z.
Proof. intros H. unfold wrap64. rewrite Z.mod_small by lia. lia. Qed.

Lemma incr_wrap64 (z : Z) : incr (wrap64 z) = wrap64 (z + 1).
Proof.
  unfold incr, wrap64. f_equal.
  replace ((z + 2 ^ 63) mod 2 ^ 64 - 2 ^ 63 + 1 + 2 ^ 63)
    with ((z + 2 ^ 63) mod 2 ^ 64 + 1) by lia.
  replace (z + 1 + 2 ^ 63) with ((z + 2 ^ 63) + 1) by lia.
  rewrite Zplus_mod_idemp_l. reflexivity.
Qed.

Lemma add_wrapped_wrap64 (z : Z) (n : nat) :
  add_wrapped (wrap64 z) n = wrap64 (z + Z.of_nat n).
Proof.
  unfold add_wrapped. induction n as [|n IH].
  - simpl. f_equal. lia.
  - rewrite Nat.iter_succ, IH, incr_wrap64. f_equal. lia.
Qed.

(** Below 2^63 increments the counters count. *)
Lemma add_wrapped_small (n : nat) :
  Z.of_nat n < 2 ^ 63 → add_wrapped 0 n = Z.of_nat n.
Proof.
  intros H. change 0 with (wrap64 0) at 1.
  rewrite add_wrapped_wrap64. apply wrap64_small. lia.
Qed.

Lemma add_wrapped_S (z : Z) (n : nat) :
  add_wrapped (incr z) n = add_wrapped z (S n).
Proof.
  unfold add_wrapped. induction n as [|n IH]; [reflexivity|].
  rewrite Nat.iter_succ, IH. reflexivity.
Qed.

End Counters.

Section Scanner.

Context {tables : UnicodeTables} {T : Type}.
Variable zero : T.
Implicit Types (cr : ConfigReader T) (env : Env) (entry : DirEntry)
  (configs : gmap string T) (stats : scanStats) (vs : list visit).

Lemma failure_excludes_loaded cr env (dir : string) entry e :
  failure zero cr env dir entry = Some e → loaded zero cr env dir entry = None.
Proof.
  unfold failure, loaded. destruct (de_Info entry) as [info|err]; [|reflexivity].
  destruct (result (processFile _ _ _ _ _)) as [[[cfg name] [err|]]|];
    try discriminate.
  destruct cfg; reflexivity.
Qed.

(** With a callable reader an entry either fails or is loaded. *)
Lemma entry_ends cr env (dir : string) entry :
  callable cr →
  is_Some (failure zero cr env dir entry) ∨ is_Some (loaded zero cr env dir entry).
Proof.
  intros Hc. unfold failure, loaded.
  destruct (de_Info entry) as [info|err]; [|left; eauto].
  destruct (processFile_total zero cr env
              (filepath_Join env dir (de_Name entry)) info Hc) as [[[cfg name] err] Hr].
  rewrite Hr. destruct err as [err|]; [left; eauto|].
  apply processFile_returns in Hr as [Hr _].
  destruct (Hr eq_refl) as [_ [c ->]]. right. eauto.
Qed.

Lemma entry_step_lenient cr env (dir : string) entry configs stats :
  strictMode cr = false →
  (entry_step zero cr env dir entry configs stats).1.1 = None.
Proof.
  intros Hs. unfold entry_step. rewrite Hs.
  destruct (failure _ _ _ _ _); [reflexivity|].
  destruct (loaded _ _ _ _ _) as [[name cfg]|]; [|reflexivity].
  destruct (configs !! name); reflexivity.
Qed.

Lemma visit_step_lenient cr env (v : visit) configs stats :
  strictMode cr = false → (visit_step zero cr env v configs stats).1.1 = None.
Proof.
  intros Hs. destruct v; simpl; [reflexivity | by apply entry_step_lenient |].
  rewrite Hs. reflexivity.
Qed.

(** [processEntry] against its pure counterpart. *)
Lemma processEntry_result cr env (dir : string) entry configs stats :
  callable cr →
  result (processEntry zero cr env dir entry configs stats) =
  Returns (entry_step zero cr env dir entry configs stats).
Proof.
  intros Hc. pose proof Hc as [Hl _].
  unfold processEntry, entry_step, failure, loaded.
  destruct (de_Info entry) as [info|err].
  - rewrite result_bind.
    destruct (processFile_total zero cr env
                (filepath_Join env dir (de_Name entry)) info Hc)
      as [[[cfg name] err] Hr].
    rewrite Hr. apply processFile_returns in Hr as [Hok Hko].
    destruct err as [err|].
    + mstep. destruct (strictMode cr); reflexivity.
    + destruct (Hok eq_refl) as [_ [c ->]].
      destruct (configs !! name); mstep;
        destruct (strictMode cr); mstep; reflexivity.
  - mstep. destruct (strictMode cr); reflexivity.
Qed.

Lemma steps_app cr env (l1 l2 : list visit) configs stats :
  steps zero cr env (l1 ++ l2) configs stats =
  match steps zero cr env l1 configs stats with
  | (Some err, configs, stats) => (Some err, configs, stats)
  | (None, configs, stats) => steps zero cr env l2 configs stats
  end.
Proof.
  revert configs stats. induction l1 as [|v l1 IH]; intros configs stats; simpl.
  - reflexivity.
  - destruct (visit_step zero cr env v configs stats) as [[[e|] c] s];
      [reflexivity | apply IH].
Qed.

Lemma scanFlat_loop_result cr env (dir : string) (files : list DirEntry)
    configs stats :
  callable cr →
  result (scanFlat_loop zero cr env dir files configs stats) =
  Returns (steps zero cr env (flat_visits dir files) configs stats).
Proof.
  intros Hc. revert configs stats.
  induction files as [|file files IH]; intros configs stats; simpl.
  - reflexivity.
  - destruct (de_IsDir file); simpl; [apply IH|].
    rewrite result_bind, processEntry_result by exact Hc.
    pose proof (entry_step_lenient cr env dir file configs stats) as Hlen.
    destruct (entry_step zero cr env dir file configs stats) as [[[e|] c] s].
    + destruct (strictMode cr); [reflexivity|].
      specialize (Hlen eq_refl). discriminate.
    + apply IH.
Qed.

Lemma scanFlat_result cr env (dir : string) configs stats :
  callable cr →
  result (scanFlat zero cr env dir configs stats) =
  Returns (match os_ReadDir env dir with
           | (_, Some err) => (Some (ReadDirError err), configs, stats)
           | (files, None) => steps zero cr env (flat_visits dir files) configs stats
           end).
Proof.
  intros Hc. pose proof Hc as [Hl _]. unfold scanFlat. mstep.
  destruct (os_ReadDir env dir) as [files [err|]]; [reflexivity|].
  mstep. by apply scanFlat_loop_result.
Qed.

(** *** The walk *)

Lemma walkFn_entry cr env (path : string) (d : DirEntry) configs stats :
  callable cr →
  result (walkFn zero cr env path (Some d) None configs stats) =
  Returns (if de_IsDir d then (None, configs, stats)
           else entry_step zero cr env (filepath_Dir env path) d configs stats).
Proof.
  intros Hc. unfold walkFn. destruct (de_IsDir d); [reflexivity|].
  by apply processEntry_result.
Qed.

Lemma walkFn_error cr env (path : string) (d : option DirEntry) (err : error)
    configs stats :
  callable cr →
  result (walkFn zero cr env path d (Some err) configs stats) =
  Returns (visit_step zero cr env (visit_error path err) configs stats).
Proof.
  intros [Hl _]. unfold walkFn. mstep. simpl.
  destruct (strictMode cr); reflexivity.
Qed.

Lemma walkDir_unfold cr env (path name : string) (isDir : bool) info
    (dirs : list DirEntry) (readErr : option error) configs stats :
  walkDir zero cr env path (mkDirEntry name isDir info (dirs, readErr)) configs stats =
  let d := mkDirEntry name isDir info (dirs, readErr) in
  let* '(err, configs, stats) := walkFn zero cr env path (Some d) None configs stats in
  match err with
  | Some err => ret (Some err, configs, stats)
  | None =>
      if negb isDir then ret (None, configs, stats)
      else
        let* _ := emit (ev_ReadDir path) in
        let* '(err, configs, stats) :=
          match readErr with
          | Some err => walkFn zero cr env path (Some d) (Some err) configs stats
          | None => ret (None, configs, stats)
          end in
        match err with
        | Some err => ret (Some err, configs, stats)
        | None => walkEntries zero cr env path dirs configs stats
        end
  end.
Proof. reflexivity. Qed.

Lemma walkEntries_result cr env (path : string) (dirs : list DirEntry) :
  Forall (λ d, ∀ (path : string) configs stats,
            result (walkDir zero cr env path d configs stats) =
            Returns (steps zero cr env (walk_visits env path d) configs stats)) dirs →
  ∀ configs stats,
    result (walkEntries zero cr env path dirs configs stats) =
    Returns (steps zero cr env (entries_visits env path dirs) configs stats).
Proof.
  induction 1 as [|d1 dirs Hd _ IH]; intros configs stats; simpl.
  - reflexivity.
  - rewrite result_bind, Hd, steps_app.
    destruct (steps zero cr env (walk_visits env _ d1) configs stats)
      as [[[e|] c] s]; [reflexivity | apply IH].
Qed.

(** [walkDir] against the visits of the walk. *)
Lemma walkDir_result cr env (d : DirEntry) :
  callable cr →
  ∀ (path : string) configs stats,
    result (walkDir zero cr env path d configs stats) =
    Returns (steps zero cr env (walk_visits env path d) configs stats).
Proof.
  intros Hc. induction d as [name isDir info dirs readErr IH] using DirEntry_tree_ind.
  intros path configs stats.
  rewrite walkDir_unfold. cbv zeta.
  rewrite result_bind, walkFn_entry by exact Hc.
  change (walk_visits env path (mkDirEntry name isDir info (dirs, readErr)))
    with (if isDir then
            match readErr with Some err => [visit_error path err] | None => [] end
            ++ entries_visits env path dirs
          else [visit_file (filepath_Dir env path)
                           (mkDirEntry name isDir info (dirs, readErr))]).
  simpl de_IsDir. destruct isDir; simpl negb.
  - cbv iota. mstep. destruct readErr as [err|].
    + rewrite walkFn_error by exact Hc. simpl.
      destruct (strictMode cr); [reflexivity|].
      by apply walkEntries_result.
    + mstep. simpl. by apply walkEntries_result.
  - simpl.
    destruct (entry_step zero cr env (filepath_Dir env path) _ configs stats)
      as [[[e|] c] s]; reflexivity.
Qed.

Lemma scanRecursive_result cr env (dirPath : string) configs stats :
  callable cr →
  result (scanRecursive zero cr env dirPath configs stats) =
  Returns (steps zero cr env (root_visits env dirPath) configs stats).
Proof.
  intros Hc. unfold scanRecursive, WalkDir, root_visits. mstep.
  destruct (os_Lstat env dirPath) as [info|err].
  - by apply walkDir_result.
  - rewrite walkFn_error by exact Hc. simpl.
    destruct (strictMode cr); reflexivity.
Qed.

End Scanner.

(** ** The scan as a function of its visits *)

Section Visits.

Context {tables : UnicodeTables} {T : Type}.
Variable zero : T.
Implicit Types (cr : ConfigReader T) (env : Env) (entry : DirEntry)
  (configs : gmap string T) (stats : scanStats) (vs : list visit).

Lemma loads_app cr env (l1 l2 : list visit) :
  loads zero cr env (l1 ++ l2) = loads zero cr env l1 ++ loads zero cr env l2.
Proof. unfold loads. apply omap_app. Qed.

Lemma errors_inc_skipped stats : errors (inc_skipped stats) = errors stats.
Proof. reflexivity. Qed.

Lemma errors_inc_processed stats : errors (inc_processed stats) = errors stats.
Proof. reflexivity. Qed.

(** Lenient mode: every visit is made, the values that were read are
    stored in turn, and each failure is counted. *)
Lemma steps_lenient cr env vs configs stats :
  strictMode cr = false →
  ∃ stats',
    steps zero cr env vs configs stats =
      (None, store_all (loads zero cr env vs) configs, stats') ∧
    errors stats' = add_wrapped (errors stats) (length (failures zero cr env vs)).
Proof.
  intros Hs. revert configs stats.
  induction vs as [|v vs IH]; intros configs stats.
  - exists stats. split; reflexivity.
  - destruct v as [|dir entry|path err]; simpl.
    + destruct (IH configs (inc_skipped stats)) as (s' & -> & He).
      exists s'. split; [reflexivity | exact He].
    + unfold entry_step. rewrite Hs.
      destruct (failure zero cr env dir entry) as [e|] eqn:Hf.
      * rewrite (failure_excludes_loaded _ _ _ _ _ _ Hf).
        destruct (IH configs (inc_skipped (inc_errors stats))) as (s' & -> & He).
        exists s'. split; [reflexivity|].
        rewrite He. simpl. apply add_wrapped_S.
      * destruct (loaded zero cr env dir entry) as [[name cfg]|].
        -- destruct (IH (<[name:=cfg]> configs) (inc_processed stats))
             as (s' & Hst & He).
           exists s'. destruct (configs !! name); rewrite Hst; split; auto.
        -- destruct (IH configs (inc_skipped stats)) as (s' & -> & He).
           exists s'. split; [reflexivity | exact He].
    + rewrite Hs.
      destruct (IH configs (inc_errors stats)) as (s' & -> & He).
      exists s'. split; [reflexivity|].
      rewrite He. simpl. apply add_wrapped_S.
Qed.

(** Strict mode: clean visits are stored and the scan goes on. *)
Lemma steps_clean cr env (pre rest : list visit) configs stats :
  callable cr → clean zero cr env pre configs →
  ∃ stats',
    steps zero cr env (pre ++ rest) configs stats =
    steps zero cr env rest (store_all (loads zero cr env pre) configs) stats'.
Proof.
  intros Hc. revert configs stats.
  induction pre as [|v pre IH]; intros configs stats (Hall & Hnd & Hfresh).
  - exists stats. reflexivity.
  - apply Forall_cons in Hall as [Hv Hall].
    destruct v as [|dir entry|path err]; simpl in *; [| |contradiction].
    + apply IH. split; [exact Hall | split; assumption].
    + unfold entry_step. rewrite Hv.
      destruct (entry_ends zero cr env dir entry Hc) as [[e He]|[[name cfg] Hl]];
        [congruence|].
      unfold loads in *. simpl in *. rewrite Hl in *. simpl in *.
      apply NoDup_cons in Hnd as [Hnotin Hnd].
      rewrite (Hfresh name) by (left).
      apply IH. split; [exact Hall|]. split; [exact Hnd|].
      intros k Hk. rewrite lookup_insert_ne.
      * apply Hfresh. by right.
      * intros <-. exact (Hnotin Hk).
Qed.

Lemma store_all_app (l1 l2 : list (string * T)) configs :
  store_all (l1 ++ l2) configs = store_all l2 (store_all l1 configs).
Proof. unfold store_all. apply fold_left_app. Qed.

Lemma store_all_lookup_notin (l : list (string * T)) configs (k : string) :
  k ∉ l.*1 → store_all l configs !! k = configs !! k.
Proof.
  revert configs. induction l as [|[k' v'] l IH]; intros configs Hk; simpl.
  - reflexivity.
  - rewrite IH by (intros H; apply Hk; by right).
    apply lookup_insert_ne. intros ->. apply Hk. by left.
Qed.

(** The last value stored under a name is the one the map holds. *)
Lemma store_all_last (l1 l2 : list (string * T)) configs (k : string) (v : T) :
  k ∉ l2.*1 → store_all (l1 ++ (k, v) :: l2) configs !! k = Some v.
Proof.
  intros Hk. rewrite store_all_app. simpl.
  rewrite store_all_lookup_notin by exact Hk. apply lookup_insert_eq.
Qed.

(** Only stored names are added to the map. *)
Lemma store_all_lookup_Some (l : list (string * T)) configs (k : string) (v : T) :
  store_all l configs !! k = Some v → (k, v) ∈ l ∨ configs !! k = Some v.
Proof.
  revert configs. induction l as [|[k' v'] l IH]; intros configs H; simpl in *.
  - by right.
  - apply IH in H as [H|H]; [left; by right|].
    destruct (decide (k' = k)) as [->|Hne].
    + rewrite lookup_insert_eq in H. injection H as ->. left. by left.
    + rewrite lookup_insert_ne in H by exact Hne. by right.
Qed.

Lemma store_all_is_Some (l : list (string * T)) configs (k : string) :
  k ∈ l.*1 → is_Some (store_all l configs !! k).
Proof.
  revert configs. induction l as [|[k' v'] l IH]; intros configs H; simpl in *.
  - by apply elem_of_nil in H.
  - apply elem_of_cons in H as [->|H]; [|by apply IH].
    destruct (decide (k' ∈ l.*1)) as [Hin|Hnotin]; [by apply IH|].
    rewrite store_all_lookup_notin by exact Hnotin.
    rewrite lookup_insert_eq. eauto.
Qed.

(** The names a map holds after a lenient scan from the empty map. *)
Lemma store_all_dom (l : list (string * T)) (k : string) :
  is_Some (store_all l ∅ !! k) ↔ k ∈ l.*1.
Proof.
  split; [|apply store_all_is_Some].
  intros [v Hv]. apply store_all_lookup_Some in Hv as [Hv|Hv].
  - apply list_elem_of_fmap. exists (k, v). split; [reflexivity | exact Hv].
  - rewrite lookup_empty in Hv. discriminate.
Qed.

(** *** The facade *)

Lemma scan_end_result cr env (dirPath : string) :
  callable cr →
  result (if recursive cr
          then scanRecursive zero cr env dirPath ∅ (mkScanStats 0 0 0)
          else scanFlat zero cr env dirPath ∅ (mkScanStats 0 0 0)) =
  Returns (scan_end zero cr env dirPath).
Proof.
  intros Hc. unfold scan_end. destruct (recursive cr).
  - by apply scanRecursive_result.
  - rewrite scanFlat_result by exact Hc.
    destruct (os_ReadDir env dirPath) as [files [err|]]; reflexivity.
Qed.

Lemma effective_path_result cr (path : string) :
  is_Some (logger cr) →
  result (if String.eqb path "" then
            let* _ := log cr LevelInfo "using default configuration directory"
                        [slog_String "dir" (defaultPath cr)] in
            ret (defaultPath cr)
          else ret path) = Returns (effective_path cr path).
Proof.
  intros Hl. unfold effective_path. destruct (String.eqb path ""); mstep; reflexivity.
Qed.

(** [ReadDirMap] with a callable reader. *)
Lemma ReadDirMap_result cr env (dirPath : string) :
  callable cr →
  result (ReadDirMap zero cr env dirPath) =
  Returns (match os_Stat env (effective_path cr dirPath) with
           | inr err => (None, Some (DirInaccessible err))
           | inl info =>
               if negb (fi_IsDir info) then (None, Some NotADirectory)
               else scan_outcome (scan_end zero cr env (effective_path cr dirPath))
           end).
Proof.
  intros Hc. pose proof Hc as [Hl _]. unfold ReadDirMap.
  rewrite result_bind, effective_path_result by exact Hl.
  mstep. destruct (os_Stat env (effective_path cr dirPath)) as [info|err];
    [|reflexivity].
  destruct (fi_IsDir info); simpl negb; cbv iota; [|reflexivity].
  rewrite result_bind, scan_end_result by exact Hc.
  destruct (scan_end zero cr env (effective_path cr dirPath)) as [[[e|] c] s];
    simpl; [reflexivity|].
  mstep. destruct (size c =? 0)%nat; mstep; reflexivity.
Qed.

(** The closing record of a scan that ends without an error carries the
    counters the scan leaves. *)
Lemma ReadDirMap_logs_statistics cr env (dirPath : string) info configs stats :
  callable cr →
  os_Stat env (effective_path cr dirPath) = inl info → fi_IsDir info = true →
  result (if recursive cr
          then scanRecursive zero cr env (effective_path cr dirPath) ∅
                 (mkScanStats 0 0 0)
          else scanFlat zero cr env (effective_path cr dirPath) ∅
                 (mkScanStats 0 0 0)) = Returns (None, configs, stats) →
  ev_log LevelInfo "configuration loading complete"
    [slog_Int "processed" (processed stats);
     slog_Int "skipped" (skipped stats);
     slog_Int "errors" (errors stats);
     slog_Int "total_services" (Z.of_nat (size configs))]
  ∈ trace (ReadDirMap zero cr env dirPath).
Proof.
  intros Hc Hstat Hdir Hscan. pose proof Hc as [Hl _]. unfold ReadDirMap.
  rewrite trace_bind, effective_path_result by exact Hl.
  apply elem_of_app. right.
  rewrite trace_bind, result_log by exact Hl. apply elem_of_app. right.
  rewrite trace_bind, result_emit. apply elem_of_app. right.
  rewrite Hstat, Hdir. simpl negb. cbv iota.
  rewrite trace_bind, Hscan. apply elem_of_app. right.
  rewrite trace_bind, result_log by exact Hl. apply elem_of_app. left.
  unfold log. destruct Hl as [l ->]. apply elem_of_cons. by left.
Qed.

(** Whatever the reader, a call that returns gives a map or an error, and
    not both. *)
Lemma ReadDirMap_returns cr env (dirPath : string) r :
  result (ReadDirMap zero cr env dirPath) = Returns r → one_nil r.
Proof.
  unfold ReadDirMap, one_nil. rewrite result_bind.
  destruct (result (if String.eqb dirPath "" then _ else _)) as [p|]; [|discriminate].
  rewrite result_bind. destruct (result (log _ _ _ _)) as [[]|]; [|discriminate].
  mstep. destruct (os_Stat env p) as [info|err].
  - destruct (fi_IsDir info); simpl negb; cbv iota.
    + rewrite result_bind.
      destruct (result (if recursive cr then _ else _)) as [[[[e|] c] s]|];
        [| |discriminate].
      * intros [= <-]. right. simpl. eauto.
      * rewrite result_bind.
        destruct (result (log _ _ _ _)) as [[]|]; [|discriminate].
        rewrite result_bind.
        destruct (result (if (size c =? 0)%nat then _ else _)) as [[]|];
          [|discriminate].
        intros [= <-]. left. simpl. eauto.
    + intros [= <-]. right. simpl. eauto.
  - intros [= <-]. right. simpl. eauto.
Qed.

End Visits.

(** ** The scanner and the facade: the statements *)

Section ScanStatements.

Context {tables : UnicodeTables} {T : Type}.
Variable zero : T.
Implicit Types (cr : ConfigReader T) (env : Env) (entry : DirEntry)
  (configs : gmap string T) (stats : scanStats) (vs : list visit).

Lemma loaded_excludes_failure cr env (dir : string) entry kv :
  loaded zero cr env dir entry = Some kv → failure zero cr env dir entry = None.
Proof.
  intros Hl. destruct (failure zero cr env dir entry) as [e|] eqn:Hf; [|reflexivity].
  rewrite (failure_excludes_loaded _ _ _ _ _ _ Hf) in Hl. discriminate.
Qed.

Lemma scan_end_visits cr env (dirPath : string) vs :
  scan_visits cr env dirPath = Some vs →
  scan_end zero cr env dirPath = steps zero cr env vs ∅ (mkScanStats 0 0 0).
Proof.
  unfold scan_visits, scan_end. destruct (recursive cr).
  - by intros [= <-].
  - destruct (os_ReadDir env dirPath) as [files [err|]]; [discriminate|].
    by intros [= <-].
Qed.

(** A failure wraps its cause and carries the name of the entry. *)
Lemma failure_wraps cr env (dir : string) entry e :
  failure zero cr env dir entry = Some e →
  ∃ cause, Unwrap e = Some cause ∧
           (e = StrictProcessError (de_Name entry) cause ∨
            e = StrictInfoError (de_Name entry) cause).
Proof.
  unfold failure. destruct (de_Info entry) as [info|err].
  - destruct (result (processFile _ _ _ _ _)) as [[[cfg name] [err|]]|];
      try discriminate.
    intros [= <-]. exists err. split; [reflexivity | by left].
  - intros [= <-]. exists err. split; [reflexivity | by right].
Qed.

Lemma steps_abort_failure cr env (dir : string) entry (post : list visit) e
    configs stats :
  strictMode cr = true → failure zero cr env dir entry = Some e →
  steps zero cr env (visit_file dir entry :: post) configs stats =
  (Some e, configs, inc_errors stats).
Proof. intros Hs Hf. simpl. unfold entry_step. rewrite Hf, Hs. reflexivity. Qed.

Lemma steps_abort_duplicate cr env (dir : string) entry (post : list visit)
    (k : string) (v : T) configs stats :
  strictMode cr = true → loaded zero cr env dir entry = Some (k, v) →
  is_Some (configs !! k) →
  steps zero cr env (visit_file dir entry :: post) configs stats =
  (Some (DuplicateName k (de_Name entry)), configs, stats).
Proof.
  intros Hs Hl [old Hold]. simpl. unfold entry_step.
  rewrite (loaded_excludes_failure _ _ _ _ _ Hl), Hl, Hold, Hs. reflexivity.
Qed.

Lemma steps_abort_error cr env (path : string) (err : error) (post : list visit)
    configs stats :
  strictMode cr = true →
  steps zero cr env (visit_error path err :: post) configs stats =
  (Some (StrictAccessError path err), configs, stats).
Proof. intros Hs. simpl. rewrite Hs. reflexivity. Qed.

(** C3, as the code has it.  A scan by [ReadDirMap] of a directory whose
    visits, in traversal order, are [vs] (flat or recursive mode).  In
    lenient mode the call returns the map of the values that were read,
    each stored under its name in turn, so the map holds exactly the names
    of the entries that were read; the scanning function returns without an
    error, it has incremented the error counter once per failure, and the
    closing log record reports that count.  In strict mode, when the
    visits before a failing file are clean, the call returns no map and
    the error of that file, which wraps the cause and is annotated with the
    name of the entry, not with its path.  Both follow from what
    [processEntry] does with a file that fails: it increments the error
    counter, and then strict mode returns the error, while lenient mode
    counts the file as skipped and returns none. *)
Theorem scan_error_policy cr env (dirPath : string) (info : FileInfo) vs :
  callable cr →
  os_Stat env (effective_path cr dirPath) = inl info → fi_IsDir info = true →
  scan_visits cr env (effective_path cr dirPath) = Some vs →
  (strictMode cr = false →
   result (ReadDirMap zero cr env dirPath) =
     Returns (Some (store_all (loads zero cr env vs) ∅), None) ∧
   (∀ k : string, is_Some (store_all (loads zero cr env vs) ∅ !! k) ↔
                  k ∈ (loads zero cr env vs).*1) ∧
   ∃ stats',
     result (if recursive cr
             then scanRecursive zero cr env (effective_path cr dirPath) ∅
                    (mkScanStats 0 0 0)
             else scanFlat zero cr env (effective_path cr dirPath) ∅
                    (mkScanStats 0 0 0)) =
       Returns (None, store_all (loads zero cr env vs) ∅, stats') ∧
     errors stats' = add_wrapped 0 (length (failures zero cr env vs)) ∧
     ev_log LevelInfo "configuration loading complete"
       [slog_Int "processed" (processed stats');
        slog_Int "skipped" (skipped stats');
        slog_Int "errors" (add_wrapped 0 (length (failures zero cr env vs)));
        slog_Int "total_services"
          (Z.of_nat (size (store_all (loads zero cr env vs) ∅)))]
     ∈ trace (ReadDirMap zero cr env dirPath)) ∧
  (strictMode cr = true →
   ∀ (pre post : list visit) (dir : string) (bad : DirEntry) (e : error),
     vs = pre ++ visit_file dir bad :: post →
     clean zero cr env pre ∅ →
     failure zero cr env dir bad = Some e →
     result (ReadDirMap zero cr env dirPath) = Returns (None, Some e) ∧
     ∃ cause, Unwrap e = Some cause ∧
              (e = StrictProcessError (de_Name bad) cause ∨
               e = StrictInfoError (de_Name bad) cause)) ∧
  (∀ (dir : string) entry configs stats (e : error),
     failure zero cr env dir entry = Some e →
     result (processEntry zero cr env dir entry configs stats) =
       Returns (if strictMode cr
                then (Some e, configs, inc_errors stats)
                else (None, configs, inc_skipped (inc_errors stats)))).
Proof.
  intros Hc Hstat Hdir Hvs.
  pose proof (ReadDirMap_result zero cr env dirPath Hc) as Hr.
  rewrite Hstat, Hdir in Hr. simpl in Hr.
  rewrite (scan_end_visits _ _ _ _ Hvs) in Hr.
  pose proof (scan_end_result zero cr env (effective_path cr dirPath) Hc) as Hscan.
  rewrite (scan_end_visits _ _ _ _ Hvs) in Hscan.
  split; [|split].
  - intros Hs.
    destruct (steps_lenient zero cr env vs ∅ (mkScanStats 0 0 0) Hs)
      as (s' & Hst & He).
    rewrite Hst in Hr, Hscan. split; [exact Hr|]. split; [apply store_all_dom|].
    exists s'. split; [exact Hscan|]. split; [exact He|].
    change (add_wrapped 0 (length (failures zero cr env vs)))
      with (add_wrapped (errors (mkScanStats 0 0 0))
              (length (failures zero cr env vs))).
    rewrite <- He.
    exact (ReadDirMap_logs_statistics zero cr env dirPath info _ _ Hc Hstat Hdir Hscan).
  - intros Hs pre post dir bad e -> Hclean Hf.
    destruct (steps_clean zero cr env pre (visit_file dir bad :: post) ∅
                (mkScanStats 0 0 0) Hc Hclean) as (s' & Hst).
    rewrite Hst, (steps_abort_failure _ _ _ _ _ _ _ _ Hs Hf) in Hr.
    split; [exact Hr | by eapply failure_wraps].
  - intros dir entry configs stats e Hf.
    rewrite processEntry_result by exact Hc. unfold entry_step. rewrite Hf.
    reflexivity.
Qed.

(** C4. Two files with one name.  In lenient mode the map that
    [ReadDirMap] returns holds, under a name, the value read last under
    that name in traversal order.  In strict mode, when the visits before
    a file are clean and the file is read under a name that one of them
    stored, the call returns no map and the [DuplicateName] error of that
    file.  Both follow from what [processEntry] does with a value whose
    name is in the map already: strict mode returns the error and leaves
    the map alone, lenient mode overwrites. *)
Theorem duplicate_policy cr env (dirPath : string) (info : FileInfo) vs :
  callable cr →
  os_Stat env (effective_path cr dirPath) = inl info → fi_IsDir info = true →
  scan_visits cr env (effective_path cr dirPath) = Some vs →
  (strictMode cr = false →
   ∀ (l1 l2 : list (string * T)) (k : string) (v : T),
     loads zero cr env vs = l1 ++ (k, v) :: l2 → k ∉ l2.*1 →
     ∃ m, result (ReadDirMap zero cr env dirPath) = Returns (Some m, None) ∧
          m !! k = Some v) ∧
  (strictMode cr = true →
   ∀ (pre post : list visit) (dir : string) (dup : DirEntry) (k : string) (v : T),
     vs = pre ++ visit_file dir dup :: post →
     clean zero cr env pre ∅ →
     loaded zero cr env dir dup = Some (k, v) →
     k ∈ (loads zero cr env pre).*1 →
     result (ReadDirMap zero cr env dirPath) =
       Returns (None, Some (DuplicateName k (de_Name dup)))) ∧
  (∀ (dir : string) entry configs stats (k : string) (v old : T),
     loaded zero cr env dir entry = Some (k, v) → configs !! k = Some old →
     result (processEntry zero cr env dir entry configs stats) =
       Returns (if strictMode cr
                then (Some (DuplicateName k (de_Name entry)), configs, stats)
                else (None, <[k := v]> configs, inc_processed stats))).
Proof.
  intros Hc Hstat Hdir Hvs.
  pose proof (ReadDirMap_result zero cr env dirPath Hc) as Hr.
  rewrite Hstat, Hdir in Hr. simpl in Hr.
  rewrite (scan_end_visits _ _ _ _ Hvs) in Hr.
  split; [|split].
  - intros Hs l1 l2 k v Hl Hk.
    destruct (steps_lenient zero cr env vs ∅ (mkScanStats 0 0 0) Hs)
      as (s' & Hst & _).
    rewrite Hst in Hr. eexists. split; [exact Hr|].
    rewrite Hl. by apply store_all_last.
  - intros Hs pre post dir dup k v -> Hclean Hl Hk.
    destruct (steps_clean zero cr env pre (visit_file dir dup :: post) ∅
                (mkScanStats 0 0 0) Hc Hclean) as (s' & Hst).
    rewrite Hst in Hr.
    rewrite (steps_abort_duplicate _ _ _ _ _ k v _ _ Hs Hl) in Hr;
      [exact Hr | by apply store_all_is_Some].
  - intros dir entry configs stats k v old Hl Hold.
    rewrite processEntry_result by exact Hc. unfold entry_step.
    rewrite (loaded_excludes_failure _ _ _ _ _ Hl), Hl, Hold.
    destruct (strictMode cr); reflexivity.
Qed.

(** C2, as the code has it.  In recursive mode a traversal error (the root
    cannot be examined, or a directory met in the walk cannot be listed) is
    a visit of the walk: lenient mode counts it and the scan completes,
    over the entries that were read; strict mode, when the visits before
    it are clean, ends the scan with the error wrapped under the path.  In
    flat mode a listing that fails ends the scan with the wrapped error in
    either mode, and nothing is counted. *)
Theorem traversal_error_policy cr env (dirPath : string) configs stats :
  callable cr →
  (∀ err, os_Lstat env dirPath = inr err →
          root_visits env dirPath = [visit_error dirPath err]) ∧
  (∀ (path name : string) info (dirs : list DirEntry) err,
     walk_visits env path (mkDirEntry name true info (dirs, Some err)) =
     visit_error path err :: entries_visits env path dirs) ∧
  (strictMode cr = false →
   ∃ stats',
     result (scanRecursive zero cr env dirPath configs stats) =
       Returns (None, store_all (loads zero cr env (root_visits env dirPath)) configs,
                stats') ∧
     errors stats' =
       add_wrapped (errors stats)
         (length (failures zero cr env (root_visits env dirPath)))) ∧
  (strictMode cr = true →
   ∀ (pre post : list visit) (path : string) (err : error),
     root_visits env dirPath = pre ++ visit_error path err :: post →
     clean zero cr env pre configs →
     ∃ stats',
       result (scanRecursive zero cr env dirPath configs stats) =
         Returns (Some (StrictAccessError path err),
                  store_all (loads zero cr env pre) configs, stats')) ∧
  (∀ (files : list DirEntry) (err : error),
     os_ReadDir env dirPath = (files, Some err) →
     result (scanFlat zero cr env dirPath configs stats) =
       Returns (Some (ReadDirError err), configs, stats)).
Proof.
  intros Hc. split; [|split; [|split; [|split]]].
  - intros err H. unfold root_visits. rewrite H. reflexivity.
  - reflexivity.
  - intros Hs. rewrite scanRecursive_result by exact Hc.
    destruct (steps_lenient zero cr env (root_visits env dirPath) configs stats Hs)
      as (s' & -> & He).
    exists s'. split; [reflexivity | exact He].
  - intros Hs pre post path err Hv Hclean.
    rewrite scanRecursive_result by exact Hc. rewrite Hv.
    destruct (steps_clean zero cr env pre (visit_error path err :: post)
                configs stats Hc Hclean) as (s' & ->).
    rewrite steps_abort_error by exact Hs. eauto.
  - intros files err H. rewrite scanFlat_result by exact Hc. rewrite H. reflexivity.
Qed.

(** C10. A call of [ReadDirMap] that returns gives a map or an error and
    never both, nor neither; with a callable reader every call returns.
    When the scan runs, the call returns the accumulated map (the empty,
    non-nil map when nothing was stored) if the scan ends without an
    error, and no map at all if it ends with one, whatever had been
    accumulated. *)
Theorem ReadDirMap_one_nil cr env (dirPath : string) :
  (∀ r, result (ReadDirMap zero cr env dirPath) = Returns r → one_nil r) ∧
  (callable cr →
   ∃ r, result (ReadDirMap zero cr env dirPath) = Returns r ∧ one_nil r) ∧
  (callable cr →
   ∀ (info : FileInfo) (err : option error) configs stats,
     os_Stat env (effective_path cr dirPath) = inl info → fi_IsDir info = true →
     scan_end zero cr env (effective_path cr dirPath) = (err, configs, stats) →
     result (ReadDirMap zero cr env dirPath) =
       Returns (match err with
                | Some err => (None, Some err)
                | None => (Some configs, None)
                end)).
Proof.
  split; [|split].
  - apply ReadDirMap_returns.
  - intros Hc. eexists. split; [by apply ReadDirMap_result|].
    eapply ReadDirMap_returns. by apply ReadDirMap_result.
  - intros Hc info err configs stats Hstat Hdir Hend.
    rewrite ReadDirMap_result by exact Hc.
    rewrite Hstat, Hdir, Hend. destruct err; reflexivity.
Qed.

End ScanStatements.

(** *** On the instance *)

Section DefaultReader.

Context {tables : UnicodeTables} {T : Type}.
Variables yaml_Unmarshal json_Unmarshal : UnmarshalFunc T.

(** A reader built with the package's options is callable as long as its
    logger was not set to nil. *)
Lemma NewConfigReader_callable (opts : list (ConfigReaderOption T)) :
  Forall package_option opts →
  is_Some (logger (NewConfigReader yaml_Unmarshal json_Unmarshal opts)) →
  callable (NewConfigReader yaml_Unmarshal json_Unmarshal opts).
Proof.
  intros Hopts Hl. split; [exact Hl|].
  unfold NewConfigReader in *.
  set (cr0 := mkConfigReader _ _ _ _ _ _ _) in *.
  destruct (package_options_registry opts
              (RegisterFormats (DefaultFormats yaml_Unmarshal json_Unmarshal) cr0)
              Hopts) as [_ Hf].
  intros ext id fd _ Hid. rewrite Hf. intros H.
  unfold RegisterFormats in H. cbn [formats] in H. subst cr0. cbn [formats] in H.
  apply maps_Copy_Some in H as [H|H].
  - rewrite lookup_empty in H. discriminate.
  - unfold DefaultFormats in H.
    repeat (apply elem_of_cons in H as [H|H]); try by apply elem_of_nil in H.
    all: injection H as -> ->; simpl; eauto. congruence.
Qed.

End DefaultReader.

Lemma Demo_callable (opts : list (ConfigReaderOption nat)) :
  Forall package_option opts → is_Some (logger (Demo.reader opts)) →
  callable (Demo.reader opts).
Proof. apply NewConfigReader_callable. Qed.

Lemma clean_empty `{UnicodeTables} {T} (zero : T) (cr : ConfigReader T) env (pre : list visit) :
  Forall (λ v, match v with
               | visit_skip => True
               | visit_file parentDir entry => failure zero cr env parentDir entry = None
               | visit_error _ _ => False
               end) pre →
  NoDup (loads zero cr env pre).*1 →
  clean zero cr env pre ∅.
Proof. intros H1 H2. split; [exact H1|]. split; [exact H2|]. intros. apply lookup_empty. Qed.

(** Closes the side conditions of a statement on the instance. *)
Ltac on_demo :=
  first
    [ apply Demo_callable; [repeat constructor | eexists; reflexivity]
    | apply clean_empty;
        [ repeat constructor; vm_compute; reflexivity
        | vm_compute; repeat constructor; set_solver ]
    | vm_compute; reflexivity
    | vm_compute; discriminate ].

Lemma scan_error_policy_witness :
  (result (ReadDirMap 0%nat (Demo.reader []) Demo.env "/cfg/mixed") =
     Returns (Some (store_all
                      (loads 0%nat (Demo.reader []) Demo.env
                         (flat_visits "/cfg/mixed"
                            [Demo.file "valid.yaml" 3; Demo.file "broken.json" 0])) ∅),
              None) ∧
   loads 0%nat (Demo.reader []) Demo.env
     (flat_visits "/cfg/mixed" [Demo.file "valid.yaml" 3; Demo.file "broken.json" 0])
     = [("valid", 3%nat)] ∧
   ∃ stats', result (scanFlat 0%nat (Demo.reader []) Demo.env "/cfg/mixed" ∅
                       (mkScanStats 0 0 0)) =
               Returns (None, store_all [("valid", 3%nat)] ∅, stats') ∧
             errors stats' = 1) ∧
  result (ReadDirMap 0%nat (Demo.reader [WithStrictMode true]) Demo.env "/cfg/mixed") =
    Returns (None,
             Some (StrictProcessError "broken.json"
                     (ParseError "json" (errorString "unexpected end of JSON input")))).
Proof.
  split.
  - destruct (scan_error_policy 0%nat (Demo.reader []) Demo.env "/cfg/mixed"
                (mkFileInfo "mixed" 4096 true)
                (flat_visits "/cfg/mixed"
                   [Demo.file "valid.yaml" 3; Demo.file "broken.json" 0]))
      as [H _]; [on_demo | on_demo | on_demo | on_demo |].
    destruct H as (H1 & _ & s' & H3 & H4 & _); [reflexivity|].
    split; [exact H1|]. split; [vm_compute; reflexivity|].
    exists s'. split; [exact H3 | exact H4].
  - destruct (scan_error_policy 0%nat (Demo.reader [WithStrictMode true]) Demo.env
                "/cfg/mixed" (mkFileInfo "mixed" 4096 true)
                (flat_visits "/cfg/mixed"
                   [Demo.file "valid.yaml" 3; Demo.file "broken.json" 0]))
      as (_ & H & _); [on_demo | on_demo | on_demo | on_demo |].
    apply (H eq_refl [visit_file "/cfg/mixed" (Demo.file "valid.yaml" 3)] []
             "/cfg/mixed" (Demo.file "broken.json" 0)); on_demo.
Defined.

(** C3 as stated fails: the error that strict mode returns for a file
    that fails names the file, not its path.  The flat scan of one
    directory and the recursive scan of another, whose failing file lies
    one level down, return the same error; its message, which holds the
    messages of the causes it wraps, has no path separator in it. *)
Lemma scan_error_policy_counterexample :
  ∃ e : error,
    result (ReadDirMap 0%nat (Demo.reader [WithStrictMode true]) Demo.env
              "/cfg/mixed") = Returns (None, Some e) ∧
    result (ReadDirMap 0%nat (Demo.reader [WithStrictMode true; WithRecursive true])
              Demo.env "/cfg/nested") = Returns (None, Some e) ∧
    Error e = "strict mode: failed to process broken.json: failed to unmarshal json: unexpected end of JSON input" ∧
    Contains (Error e) "/cfg/mixed/broken.json" = false ∧
    Contains (Error e) "/cfg/nested/inner/broken.json" = false ∧
    Contains (Error e) "inner/broken.json" = false ∧
    Contains (Error e) "/" = false.
Proof.
  eexists. split; [vm_compute; reflexivity|].
  repeat split; vm_compute; reflexivity.
Qed.

Lemma duplicate_policy_witness :
  (∃ m, result (ReadDirMap 0%nat (Demo.reader []) Demo.env "/cfg/dup") =
          Returns (Some m, None) ∧ m !! "svc" = Some 5%nat) ∧
  result (ReadDirMap 0%nat (Demo.reader [WithStrictMode true]) Demo.env "/cfg/dup") =
    Returns (None, Some (DuplicateName "svc" "svc.json")) ∧
  Error (DuplicateName "svc" "svc.json") =
    "strict mode: duplicate service name 'svc' in file svc.json".
Proof.
  split; [|split].
  - destruct (duplicate_policy 0%nat (Demo.reader []) Demo.env "/cfg/dup"
                (mkFileInfo "dup" 4096 true)
                (flat_visits "/cfg/dup"
                   [Demo.file "svc.yaml" 3; Demo.file "svc.json" 5]))
      as [H _]; [on_demo | on_demo | on_demo | on_demo |].
    apply (H eq_refl [("svc", 3%nat)] [] "svc" 5%nat); [on_demo|].
    intros Hin. by apply elem_of_nil in Hin.
  - destruct (duplicate_policy 0%nat (Demo.reader [WithStrictMode true]) Demo.env
                "/cfg/dup" (mkFileInfo "dup" 4096 true)
                (flat_visits "/cfg/dup"
                   [Demo.file "svc.yaml" 3; Demo.file "svc.json" 5]))
      as (_ & H & _); [on_demo | on_demo | on_demo | on_demo |].
    apply (H eq_refl [visit_file "/cfg/dup" (Demo.file "svc.yaml" 3)] []
             "/cfg/dup" (Demo.file "svc.json" 5) "svc" 5%nat);
      [on_demo | on_demo | on_demo |].
    vm_compute. set_solver.
  - reflexivity.
Defined.

Lemma traversal_error_policy_witness :
  root_visits Demo.env "/cfg/tree" =
    [ visit_file "/cfg/tree" (Demo.file "a.yaml" 1);
      visit_error "/cfg/tree/locked" Demo.denied;
      visit_file "/cfg/tree/sub" (Demo.file "b.yaml" 2) ] ∧
  (∃ stats',
     result (scanRecursive 0%nat (Demo.reader [WithRecursive true]) Demo.env
               "/cfg/tree" ∅ (mkScanStats 0 0 0)) =
       Returns (None,
                store_all (loads 0%nat (Demo.reader [WithRecursive true]) Demo.env
                             (root_visits Demo.env "/cfg/tree")) ∅,
                stats') ∧
     errors stats' = 1) ∧
  (∃ stats',
     result (scanRecursive 0%nat
               (Demo.reader [WithRecursive true; WithStrictMode true]) Demo.env
               "/cfg/tree" ∅ (mkScanStats 0 0 0)) =
       Returns (Some (StrictAccessError "/cfg/tree/locked" Demo.denied),
                store_all
                  (loads 0%nat (Demo.reader [WithRecursive true; WithStrictMode true])
                     Demo.env [visit_file "/cfg/tree" (Demo.file "a.yaml" 1)]) ∅,
                stats')) ∧
  result (scanFlat 0%nat (Demo.reader [WithStrictMode true]) Demo.env "/cfg/locked"
            ∅ (mkScanStats 0 0 0)) =
    Returns (Some (ReadDirError Demo.denied), ∅, mkScanStats 0 0 0).
Proof.
  split; [vm_compute; reflexivity|]. split; [|split].
  - destruct (traversal_error_policy 0%nat (Demo.reader [WithRecursive true])
                Demo.env "/cfg/tree" ∅ (mkScanStats 0 0 0))
      as (_ & _ & H & _); [on_demo|].
    destruct H as (s' & H1 & H2); [reflexivity|].
    exists s'. split; [exact H1 | exact H2].
  - destruct (traversal_error_policy 0%nat
                (Demo.reader [WithRecursive true; WithStrictMode true])
                Demo.env "/cfg/tree" ∅ (mkScanStats 0 0 0))
      as (_ & _ & _ & H & _); [on_demo|].
    apply (H eq_refl [visit_file "/cfg/tree" (Demo.file "a.yaml" 1)]
             [visit_file "/cfg/tree/sub" (Demo.file "b.yaml" 2)]
             "/cfg/tree/locked" Demo.denied); on_demo.
  - destruct (traversal_error_policy 0%nat (Demo.reader [WithStrictMode true])
                Demo.env "/cfg/locked" ∅ (mkScanStats 0 0 0))
      as (_ & _ & _ & _ & H); [on_demo|].
    apply (H []). reflexivity.
Defined.

(** C2 as stated fails in flat mode: a lenient flat scan of a directory
    that cannot be listed does not count the error and go on; it ends with
    the error, and [ReadDirMap] returns it. *)
Lemma traversal_error_policy_counterexample :
  strictMode (Demo.reader []) = false ∧
  recursive (Demo.reader []) = false ∧
  os_ReadDir Demo.env "/cfg/locked" = ([], Some Demo.denied) ∧
  result (scanFlat 0%nat (Demo.reader []) Demo.env "/cfg/locked"
            ∅ (mkScanStats 0 0 0)) =
    Returns (Some (ReadDirError Demo.denied), ∅, mkScanStats 0 0 0) ∧
  result (ReadDirMap 0%nat (Demo.reader []) Demo.env "/cfg/locked") =
    Returns (None, Some (ReadDirError Demo.denied)).
Proof. repeat split; vm_compute; reflexivity. Qed.

Lemma ReadDirMap_one_nil_witness :
  result (ReadDirMap 0%nat (Demo.reader []) Demo.env "/cfg/empty") =
    Returns (Some ∅, None) ∧
  result (ReadDirMap 0%nat (Demo.reader [WithStrictMode true]) Demo.env "/cfg/mixed") =
    Returns (None,
             Some (StrictProcessError "broken.json"
                     (ParseError "json" (errorString "unexpected end of JSON input")))) ∧
  ∃ r, result (ReadDirMap 0%nat (Demo.reader [WithRecursive true]) Demo.env "/cfg/tree")
       = Returns r ∧ one_nil r.
Proof.
  split; [|split].
  - apply (proj2 (proj2 (ReadDirMap_one_nil 0%nat (Demo.reader []) Demo.env
                           "/cfg/empty"))
             ltac:(on_demo) (mkFileInfo "empty" 4096 true) None ∅ (mkScanStats 0 0 0));
      on_demo.
  - apply (proj2 (proj2 (ReadDirMap_one_nil 0%nat (Demo.reader [WithStrictMode true])
                           Demo.env "/cfg/mixed"))
             ltac:(on_demo) (mkFileInfo "mixed" 4096 true)
             (Some (StrictProcessError "broken.json"
                      (ParseError "json" (errorString "unexpected end of JSON input"))))
             (<["valid" := 3%nat]> ∅) (mkScanStats 1 0 1));
      on_demo.
  - apply (proj1 (proj2 (ReadDirMap_one_nil 0%nat (Demo.reader [WithRecursive true])
                           Demo.env "/cfg/tree"))). on_demo.
Defined.

(** ** Further properties: names and extensions *)

Section Names.

Lemma substring_zero_nonempty (s : string) (k : nat) :
  (0 < k)%nat → s ≠ "" → String.substring 0 k s ≠ "".
Proof. intros Hk Hs. destruct s; [done|]. destruct k; [lia | discriminate]. Qed.

(** The two loops agree: without a separator the extension starts at the
    last ".". *)
Lemma ext_from_last_index (s : string) (n : nat) :
  lacks "/" s → (n <= String.length s)%nat →
  ext_from s n =
  if last_index_from s "." n =? -1 then ""
  else slice_from s (Z.to_nat (last_index_from s "." n)).
Proof.
  intros Hsep. induction n as [|n IH]; intros Hn; simpl; [reflexivity|].
  destruct (at_lt_length_Some s n ltac:(lia)) as [c Hc]. rewrite Hc.
  assert (IsPathSeparator c = false) as ->.
  { unfold IsPathSeparator. apply Ascii.eqb_neq. intros ->. exact (Hsep n Hc). }
  destruct (Ascii.eqb c ".") eqn:Hdot.
  - replace (Z.of_nat n =? -1) with false by (symmetry; apply Z.eqb_neq; lia).
    by rewrite Nat2Z.id.
  - apply IH. lia.
Qed.

(** X1. The name [baseName] derives is a prefix of the filename, and it is
    empty only for the empty filename. *)
Theorem baseName_prefix_nonempty (filename : string) :
  (∃ rest, filename = baseName filename +:+ rest) ∧
  (baseName filename = "" ↔ filename = "").
Proof.
  unfold baseName.
  destruct (LastIndex_spec filename ".") as [[-> _] | (k & -> & Hk & _)].
  - simpl. split; [exists ""; by rewrite append_empty_r | done].
  - destruct k as [|k].
    + simpl. split; [exists ""; by rewrite append_empty_r | done].
    + replace (Z.of_nat (S k) =? -1) with false by (symmetry; apply Z.eqb_neq; lia).
      replace (Z.of_nat (S k) =? 0) with false by (symmetry; apply Z.eqb_neq; lia).
      simpl negb. cbv iota. unfold slice_to. rewrite Nat2Z.id. split.
      * eexists. by apply split_at.
      * split.
        -- intros H. exfalso. revert H. apply substring_zero_nonempty; [lia|].
           intros ->. discriminate.
        -- intros ->. discriminate.
Qed.

(** X2. For a filename without a path separator whose last "." is not its
    first byte, the derived name followed by the extension that format
    detection looks at is the filename; when the last "." is the first
    byte, both the derived name and the extension are the whole filename. *)
Theorem baseName_Ext (filename : string) :
  lacks "/" filename →
  (LastIndex filename "." ≠ 0 → baseName filename +:+ Ext filename = filename) ∧
  (LastIndex filename "." = 0 →
   baseName filename = filename ∧ Ext filename = filename).
Proof.
  intros Hsep.
  pose proof (ext_from_last_index filename (String.length filename) Hsep (le_n _))
    as HExt.
  fold (Ext filename) in HExt. fold (LastIndex filename ".") in HExt.
  unfold baseName.
  destruct (LastIndex_spec filename ".") as [[Hr _] | (k & Hr & Hk & _)];
    rewrite Hr in *.
  - simpl in *. rewrite HExt. split; [intros _; apply append_empty_r | discriminate].
  - replace (Z.of_nat k =? -1) with false in * by (symmetry; apply Z.eqb_neq; lia).
    rewrite Nat2Z.id in HExt. split.
    + intros Hk0.
      replace (Z.of_nat k =? 0) with false by (symmetry; apply Z.eqb_neq; lia).
      simpl negb. cbv iota. unfold slice_to. rewrite Nat2Z.id, HExt.
      rewrite (slice_from_at _ _ _ Hk). symmetry. by apply split_at.
    + intros Hk0. assert (k = 0%nat) as -> by lia. simpl.
      split; [reflexivity|]. rewrite HExt. unfold slice_from.
      rewrite Nat.sub_0_r. apply substring_all.
Qed.

End Names.

Lemma baseName_prefix_nonempty_witness :
  (∃ rest, "app.tar.gz" = baseName "app.tar.gz" +:+ rest) ∧ baseName ".env" ≠ "".
Proof.
  split.
  - apply (baseName_prefix_nonempty "app.tar.gz").
  - intros H. apply (baseName_prefix_nonempty ".env") in H. discriminate.
Defined.

Lemma baseName_Ext_witness :
  baseName "app.tar.gz" +:+ Ext "app.tar.gz" = "app.tar.gz" ∧
  baseName ".env" = ".env" ∧ Ext ".env" = ".env".
Proof.
  split.
  - apply (proj1 (baseName_Ext "app.tar.gz" ltac:(literal_bytes))).
    vm_compute. discriminate.
  - apply (proj2 (baseName_Ext ".env" ltac:(literal_bytes))). reflexivity.
Defined.

(** ** Further properties: the registry *)

Section RegistryExtras.

Context {tables : UnicodeTables} {T : Type}.
Implicit Types (cr : ConfigReader T) (fm : FormatMap T) (fd : FormatData T).

Lemma fold_register_lookup fm (m : gmap string ConfigFormat) (k : string) :
  fold_left (λ m kv, register_exts kv.1 (Extensions kv.2) m) fm m !! k =
  match owner_of fm k with Some id => Some id | None => m !! k end.
Proof.
  revert m. induction fm as [|[id fd] fm IH]; intros m; simpl; [reflexivity|].
  rewrite IH. destruct (owner_of fm k); [reflexivity|].
  rewrite register_exts_lookup.
  destruct (decide (k ∈ ToLower <$> Extensions fd)); reflexivity.
Qed.

Lemma maps_Copy_lookup (dst : gmap ConfigFormat (FormatData T)) fm (id : ConfigFormat) :
  maps_Copy dst fm !! id =
  match entry_of fm id with Some fd => Some fd | None => dst !! id end.
Proof.
  unfold maps_Copy. revert dst.
  induction fm as [|[id' fd] fm IH]; intros dst; simpl; [reflexivity|].
  rewrite IH. destruct (entry_of fm id); [reflexivity|].
  destruct (decide (id = id')) as [->|Hne].
  - apply lookup_insert_eq.
  - apply lookup_insert_ne. congruence.
Qed.

Lemma owner_of_Some fm (k : string) (id : ConfigFormat) :
  owner_of fm k = Some id → ∃ fd, (id, fd) ∈ fm ∧ k ∈ ToLower <$> Extensions fd.
Proof.
  induction fm as [|[id' fd'] fm IH]; simpl; [discriminate|].
  destruct (owner_of fm k) as [id''|].
  - intros [= <-]. destruct (IH eq_refl) as (fd & Hin & Hk).
    exists fd. split; [by right | exact Hk].
  - destruct (decide (k ∈ ToLower <$> Extensions fd')) as [Hk|]; [|discriminate].
    intros [= <-]. exists fd'. split; [by left | exact Hk].
Qed.

Lemma owner_of_None fm (k : string) (id : ConfigFormat) fd :
  owner_of fm k = None → (id, fd) ∈ fm → k ∉ ToLower <$> Extensions fd.
Proof.
  induction fm as [|[id' fd'] fm IH]; simpl; intros Ho Hin.
  - by apply elem_of_nil in Hin.
  - destruct (owner_of fm k); [discriminate|].
    destruct (decide (k ∈ ToLower <$> Extensions fd')) as [|Hk]; [discriminate|].
    apply elem_of_cons in Hin as [[= -> ->]|Hin]; [exact Hk | by apply IH].
Qed.

Lemma entry_of_Some fm (id : ConfigFormat) fd :
  entry_of fm id = Some fd → (id, fd) ∈ fm.
Proof.
  induction fm as [|[id' fd'] fm IH]; simpl; [discriminate|].
  destruct (entry_of fm id) as [fd''|].
  - intros [= <-]. right. by apply IH.
  - destruct (decide (id = id')) as [->|]; [|discriminate].
    intros [= <-]. by left.
Qed.

Lemma entry_of_None fm (id : ConfigFormat) : entry_of fm id = None → id ∉ fm.*1.
Proof.
  induction fm as [|[id' fd'] fm IH]; simpl; intros He Hin.
  - by apply elem_of_nil in Hin.
  - destruct (entry_of fm id); [discriminate|].
    destruct (decide (id = id')) as [|Hne]; [discriminate|].
    apply elem_of_cons in Hin as [?|Hin]; [done | by apply IH].
Qed.

Lemma owner_of_perm fm1 fm2 (k : string) :
  unambiguous fm1 → fm1 ≡ₚ fm2 → owner_of fm1 k = owner_of fm2 k.
Proof.
  intros [_ Hun] Hp.
  destruct (owner_of fm1 k) as [id1|] eqn:H1, (owner_of fm2 k) as [id2|] eqn:H2;
    [| | |reflexivity].
  - apply owner_of_Some in H1 as (fd1 & Hin1 & Hk1).
    apply owner_of_Some in H2 as (fd2 & Hin2 & Hk2).
    rewrite <- Hp in Hin2. f_equal. by eapply Hun.
  - apply owner_of_Some in H1 as (fd1 & Hin1 & Hk1).
    rewrite Hp in Hin1. by destruct (owner_of_None _ _ _ _ H2 Hin1).
  - apply owner_of_Some in H2 as (fd2 & Hin2 & Hk2).
    rewrite <- Hp in Hin2. by destruct (owner_of_None _ _ _ _ H1 Hin2).
Qed.

Lemma NoDup_fst_inj fm (id : ConfigFormat) fd1 fd2 :
  NoDup fm.*1 → (id, fd1) ∈ fm → (id, fd2) ∈ fm → fd1 = fd2.
Proof.
  induction fm as [|[id' fd'] fm IH]; simpl; intros Hnd H1 H2.
  - by apply elem_of_nil in H1.
  - apply NoDup_cons in Hnd as [Hnotin Hnd].
    apply elem_of_cons in H1 as [H1|H1];
      apply elem_of_cons in H2 as [H2|H2];
      try (injection H1 as ? ?); try (injection H2 as ? ?); subst; try done.
    + exfalso. apply Hnotin. apply list_elem_of_fmap. by exists (id', fd2).
    + exfalso. apply Hnotin. apply list_elem_of_fmap. by exists (id', fd1).
    + by apply IH.
Qed.

Lemma entry_of_perm fm1 fm2 (id : ConfigFormat) :
  unambiguous fm1 → fm1 ≡ₚ fm2 → entry_of fm1 id = entry_of fm2 id.
Proof.
  intros [Hnd _] Hp.
  destruct (entry_of fm1 id) as [fd1|] eqn:H1, (entry_of fm2 id) as [fd2|] eqn:H2;
    [| | |reflexivity].
  - apply entry_of_Some in H1, H2. rewrite <- Hp in H2.
    f_equal. by eapply NoDup_fst_inj.
  - apply entry_of_Some in H1. apply entry_of_None in H2.
    exfalso. apply H2. rewrite <- Hp. apply list_elem_of_fmap. by exists (id, fd1).
  - apply entry_of_Some in H2. apply entry_of_None in H1.
    exfalso. apply H1. rewrite Hp. apply list_elem_of_fmap. by exists (id, fd2).
Qed.

(** X3. What a registration leaves.  A lower-cased extension is owned by
    the last format of the argument, in iteration order, that lists it in
    any letter case (a previous owner is overwritten), and keeps its owner
    when none lists it; an identifier has the last catalog entry the
    argument gives it, and keeps its entry when the argument has none. *)
Theorem RegisterFormats_lookup fm cr (k : string) (id : ConfigFormat) :
  supportedExts (RegisterFormats fm cr) !! k =
    match owner_of fm k with Some id => Some id | None => supportedExts cr !! k end ∧
  formats (RegisterFormats fm cr) !! id =
    match entry_of fm id with Some fd => Some fd | None => formats cr !! id end.
Proof. split; [apply fold_register_lookup | apply maps_Copy_lookup]. Qed.

Lemma RegisterFormats_ext cr cr' :
  supportedExts cr = supportedExts cr' → formats cr = formats cr' →
  logger cr = logger cr' → defaultPath cr = defaultPath cr' →
  strictMode cr = strictMode cr' → maxFileSize cr = maxFileSize cr' →
  recursive cr = recursive cr' → cr = cr'.
Proof. destruct cr, cr'; simpl; intros; by subst. Qed.

(** X4. The order in which [RegisterFormats] ranges over its argument does
    not matter when the argument is unambiguous: every iteration order of
    such a map gives the same reader. *)
Theorem RegisterFormats_order fm1 fm2 cr :
  unambiguous fm1 → fm1 ≡ₚ fm2 → RegisterFormats fm1 cr = RegisterFormats fm2 cr.
Proof.
  intros Hun Hp. apply RegisterFormats_ext; try reflexivity.
  - apply map_eq. intros k. simpl.
    rewrite !fold_register_lookup, (owner_of_perm fm1 fm2 k Hun Hp). reflexivity.
  - apply map_eq. intros id. simpl.
    rewrite !maps_Copy_lookup, (entry_of_perm fm1 fm2 id Hun Hp). reflexivity.
Qed.

(** X5. Registering an unambiguous map a second time changes nothing,
    whatever the order in which the second loop visits it.  Without that
    the order counts: two formats that list one extension can trade its
    ownership when the map is registered again. *)
Theorem RegisterFormats_idempotent fm1 fm2 cr :
  (unambiguous fm1 → fm1 ≡ₚ fm2 →
   RegisterFormats fm2 (RegisterFormats fm1 cr) = RegisterFormats fm1 cr) ∧
  (∀ fd : FormatData T,
     Extensions fd = [".cfg"] →
     NoDup [(1, fd); (2, fd)].*1 ∧
     [(1, fd); (2, fd)] ≡ₚ [(2, fd); (1, fd)] ∧
     supportedExts (RegisterFormats [(1, fd); (2, fd)] cr) !! ".cfg" = Some 2 ∧
     supportedExts (RegisterFormats [(2, fd); (1, fd)]
                      (RegisterFormats [(1, fd); (2, fd)] cr)) !! ".cfg" = Some 1).
Proof.
  split.
  - intros Hun Hp. apply RegisterFormats_ext; try reflexivity.
    + apply map_eq. intros k.
      change (supportedExts (RegisterFormats fm2 (RegisterFormats fm1 cr)) !! k =
              supportedExts (RegisterFormats fm1 cr) !! k).
      unfold RegisterFormats at 1. cbn [supportedExts].
      rewrite fold_register_lookup, <- (owner_of_perm fm1 fm2 k Hun Hp).
      destruct (owner_of fm1 k) eqn:Ho; [|reflexivity].
      unfold RegisterFormats. cbn [supportedExts].
      rewrite fold_register_lookup, Ho. reflexivity.
    + apply map_eq. intros id.
      unfold RegisterFormats at 1. cbn [formats].
      rewrite maps_Copy_lookup, <- (entry_of_perm fm1 fm2 id Hun Hp).
      destruct (entry_of fm1 id) eqn:He; [|reflexivity].
      unfold RegisterFormats. cbn [formats].
      rewrite maps_Copy_lookup, He. reflexivity.
  - intros fd Hext. split; [|split; [|split]].
    + simpl. apply NoDup_cons. split; [|apply NoDup_singleton].
      intros H. apply list_elem_of_singleton in H. discriminate.
    + apply Permutation_swap.
    + unfold RegisterFormats. cbn [supportedExts].
      rewrite fold_register_lookup. simpl. rewrite Hext. reflexivity.
    + unfold RegisterFormats. cbn [supportedExts].
      rewrite fold_register_lookup. simpl. rewrite Hext. reflexivity.
Qed.

Lemma RegisterFormats_consistent fm cr :
  registry_consistent cr → registry_consistent (RegisterFormats fm cr).
Proof.
  intros Hc ext id H.
  apply supportedExts_RegisterFormats_Some in H as [H | (fd & Hin & _)].
  - apply maps_Copy_is_Some. by eapply Hc.
  - simpl. rewrite maps_Copy_lookup.
    destruct (entry_of fm id) eqn:He; [eauto|].
    apply entry_of_None in He. exfalso. apply He.
    apply list_elem_of_fmap. by exists (id, fd).
Qed.

End RegistryExtras.

#[local] Set Warnings "-clear-no-such-hyp".
(** ** Further properties: the default formats *)

Section Defaults.

Context {tables : UnicodeTables} {T : Type}.
Variable zero : T.
Variables yaml_Unmarshal json_Unmarshal : UnmarshalFunc T.
Implicit Types (cr : ConfigReader T) (fm : FormatMap T) (fd : FormatData T).

Lemma DefaultFormats_unambiguous :
  unambiguous (DefaultFormats yaml_Unmarshal json_Unmarshal).
Proof.
  split.
  - simpl. repeat (apply NoDup_cons; split; [set_solver|]). apply NoDup_nil_2.
  - intros id1 fd1 id2 fd2 k H1 H2 Hk1 Hk2. unfold DefaultFormats in *.
    repeat (apply elem_of_cons in H1 as [H1|H1]); try by apply elem_of_nil in H1.
    all: repeat (apply elem_of_cons in H2 as [H2|H2]); try by apply elem_of_nil in H2.
    all: injection H1 as -> ->; injection H2 as -> ->; try reflexivity.
    all: simpl in Hk1, Hk2; exfalso; set_solver.
Qed.

Lemma NewConfigReader_supportedExts (opts : list (ConfigReaderOption T)) (k : string) :
  Forall package_option opts →
  supportedExts (NewConfigReader yaml_Unmarshal json_Unmarshal opts) !! k =
  if decide (k = ".yaml" ∨ k = ".yml") then Some FormatYAML
  else if decide (k = ".json") then Some FormatJSON
  else if decide (k = "") then Some FormatUnknown
  else None.
Proof.
  intros Hopts. unfold NewConfigReader.
  set (cr0 := mkConfigReader _ _ _ _ _ _ _).
  destruct (package_options_registry opts
              (RegisterFormats (DefaultFormats yaml_Unmarshal json_Unmarshal) cr0)
              Hopts) as [-> _].
  unfold RegisterFormats. cbn [supportedExts]. rewrite fold_register_lookup.
  subst cr0. cbn [supportedExts]. rewrite lookup_empty.
  unfold DefaultFormats, owner_of. cbn [Extensions fmap list_fmap ToLower to_lower_byte].
  repeat (destruct (decide _) as [?|?]); try reflexivity; exfalso; set_solver.
Qed.

(** X6. Detection by a reader that was built with the package's options:
    YAML for the extensions ".yaml" and ".yml", JSON for ".json", in any
    letter case, and the unknown format for every other filename. *)
Theorem detectFormat_default (opts : list (ConfigReaderOption T)) (filename : string) :
  Forall package_option opts →
  detectFormat (NewConfigReader yaml_Unmarshal json_Unmarshal opts) filename =
  if decide (ToLower (Ext filename) = ".yaml" ∨ ToLower (Ext filename) = ".yml")
  then FormatYAML
  else if decide (ToLower (Ext filename) = ".json") then FormatJSON
  else FormatUnknown.
Proof.
  intros Hopts. unfold detectFormat.
  rewrite NewConfigReader_supportedExts by exact Hopts.
  repeat (destruct (decide _) as [?|?]); reflexivity.
Qed.

Lemma readAndParseFile_unregistered_inv cr env (fullPath : string)
    (format : ConfigFormat) (target v : T) (n : string) :
  result (readAndParseFile cr env fullPath format target)
    = Returns (v, Some (NoRegisteredFormat n)) →
  formats cr !! format = None.
Proof.
  unfold readAndParseFile. rewrite result_bind.
  destruct (result (log _ _ _ _)) as [[]|]; [|discriminate].
  mstep. destruct (os_ReadFile env fullPath) as [data|e]; [|discriminate].
  rewrite result_bind. destruct (result (log _ _ _ _)) as [[]|]; [|discriminate].
  unfold format_entry. destruct (formats cr !! format) as [fd|]; [|reflexivity].
  simpl. destruct (Unmarshal fd) as [u|]; [|discriminate].
  destruct (u data target) as [v' [e|]]; [discriminate|].
  rewrite result_bind. destruct (result (log _ _ _ _)); discriminate.
Qed.

Lemma NewConfigReader_consistent (opts : list (ConfigReaderOption T)) :
  Forall package_option opts →
  registry_consistent (NewConfigReader yaml_Unmarshal json_Unmarshal opts).
Proof.
  intros Hopts. unfold NewConfigReader.
  set (cr0 := mkConfigReader _ _ _ _ _ _ _).
  destruct (package_options_registry opts
              (RegisterFormats (DefaultFormats yaml_Unmarshal json_Unmarshal) cr0)
              Hopts) as [Hs Hf].
  unfold registry_consistent. rewrite Hs, Hf.
  apply RegisterFormats_consistent. intros ext id H.
  subst cr0. simpl in H. rewrite lookup_empty in H. discriminate.
Qed.

(** X7. The extension table and the catalog stay consistent: in a reader
    built with the package's options every identifier that owns an
    extension has a catalog entry, and [RegisterFormats] keeps it so.  For
    such a reader [processFile] never returns the "no registered format"
    error. *)
Theorem registry_stays_consistent (opts : list (ConfigReaderOption T)) fm cr
    env (fullPath : string) (info : FileInfo) :
  (Forall package_option opts →
   registry_consistent (NewConfigReader yaml_Unmarshal json_Unmarshal opts)) ∧
  (registry_consistent cr → registry_consistent (RegisterFormats fm cr)) ∧
  (registry_consistent cr →
   ∀ cfg (name n : string),
     result (processFile zero cr env fullPath info)
       ≠ Returns (cfg, name, Some (NoRegisteredFormat n))).
Proof.
  split; [apply NewConfigReader_consistent|]. split; [apply RegisterFormats_consistent|].
  intros Hc cfg name n Hr. revert Hr. unfold processFile.
  destruct (fi_IsDir info); [discriminate|].
  destruct (maxFileSize cr <? fi_Size info); [discriminate|].
  destruct (detectFormat cr (fi_Name info) =? FormatUnknown) eqn:Hf; [discriminate|].
  apply Z.eqb_neq in Hf. rewrite result_bind.
  destruct (result (readAndParseFile _ _ _ _ _)) as [[v [e|]]|] eqn:Hp;
    [| discriminate | discriminate].
  intros [= _ _ ->].
  apply readAndParseFile_unregistered_inv in Hp.
  destruct (Hc _ _ (detectFormat_Some cr (fi_Name info) Hf)) as [fd Hfd].
  congruence.
Qed.

End Defaults.

Lemma RegisterFormats_order_witness :
  RegisterFormats (DefaultFormats Demo.yaml Demo.json) (Demo.reader []) =
  RegisterFormats (reverse (DefaultFormats Demo.yaml Demo.json)) (Demo.reader []).
Proof.
  apply (RegisterFormats_order (DefaultFormats Demo.yaml Demo.json)
           (reverse (DefaultFormats Demo.yaml Demo.json)) (Demo.reader [])).
  - apply DefaultFormats_unambiguous.
  - symmetry. apply reverse_Permutation.
Defined.

Lemma RegisterFormats_idempotent_witness :
  RegisterFormats (reverse (DefaultFormats Demo.yaml Demo.json))
    (RegisterFormats (DefaultFormats Demo.yaml Demo.json) (Demo.reader [])) =
  RegisterFormats (DefaultFormats Demo.yaml Demo.json) (Demo.reader []) ∧
  supportedExts
    (RegisterFormats [(2, mkFormatData "b" [".cfg"] (Some Demo.yaml));
                      (1, mkFormatData "b" [".cfg"] (Some Demo.yaml))]
       (RegisterFormats [(1, mkFormatData "b" [".cfg"] (Some Demo.yaml));
                         (2, mkFormatData "b" [".cfg"] (Some Demo.yaml))]
          (Demo.reader []))) !! ".cfg" = Some 1.
Proof.
  split.
  - refine (proj1 (RegisterFormats_idempotent (DefaultFormats Demo.yaml Demo.json)
                     (reverse (DefaultFormats Demo.yaml Demo.json))
                     (Demo.reader [])) _ _).
    + apply DefaultFormats_unambiguous.
    + symmetry. apply reverse_Permutation.
  - refine (proj2 (proj2 (proj2 (proj2
              (RegisterFormats_idempotent [] [] (Demo.reader []))
              (mkFormatData "b" [".cfg"] (Some Demo.yaml)) _)))).
    reflexivity.
Defined.

Lemma detectFormat_default_witness :
  detectFormat (Demo.reader [WithRecursive true]) "Service.YML" = FormatYAML ∧
  detectFormat (Demo.reader [WithRecursive true]) "notes.txt" = FormatUnknown.
Proof.
  split.
  - apply (detectFormat_default Demo.yaml Demo.json [WithRecursive true] "Service.YML").
    repeat constructor.
  - apply (detectFormat_default Demo.yaml Demo.json [WithRecursive true] "notes.txt").
    repeat constructor.
Defined.

Lemma registry_stays_consistent_witness :
  registry_consistent (RegisterFormats Demo.toml_mixed_case (Demo.reader [])) ∧
  ∀ cfg (name n : string),
    result (processFile 0%nat (Demo.reader []) Demo.env "/cfg/mixed/valid.yaml"
              (mkFileInfo "valid.yaml" 3 false))
      ≠ Returns (cfg, name, Some (NoRegisteredFormat n)).
Proof.
  destruct (registry_stays_consistent 0%nat Demo.yaml Demo.json []
              Demo.toml_mixed_case (Demo.reader []) Demo.env "/cfg/mixed/valid.yaml"
              (mkFileInfo "valid.yaml" 3 false)) as (H1 & H2 & H3).
  split; [apply H2 | apply H3]; apply H1; constructor.
Defined.

(** ** Further properties: the loader and [ReadFile] *)

Section LoaderExtras.

Context {tables : UnicodeTables} {T : Type}.
Variable zero : T.
Implicit Types (cr : ConfigReader T) (env : Env) (info : FileInfo).

Lemma reads_app (t1 t2 : list event) : reads (t1 ++ t2) = reads t1 ++ reads t2.
Proof. apply omap_app. Qed.

Lemma reads_log cr level msg attrs : reads (trace (log cr level msg attrs)) = [].
Proof. unfold log. destruct (logger cr); reflexivity. Qed.

Lemma trace_bind_app {A B} (m : M A) (k : A → M B) :
  ∃ t, trace (bind m k) = trace m ++ t ∧
       (t = [] ∨ ∃ a, result m = Returns a ∧ t = trace (k a)).
Proof.
  rewrite trace_bind. destruct (result m) as [a|] eqn:Hr.
  - eexists. split; [reflexivity|]. right. eauto.
  - exists []. split; [by rewrite app_nil_r | by left].
Qed.

Lemma reads_readAndParseFile cr env (fullPath : string) (format : ConfigFormat)
    (target : T) :
  reads (trace (readAndParseFile cr env fullPath format target)) = [] ∨
  reads (trace (readAndParseFile cr env fullPath format target)) = [fullPath].
Proof.
  unfold readAndParseFile, log.
  destruct (logger cr); [|by left]. right.
  destruct (os_ReadFile env fullPath) as [data|e]; [|reflexivity].
  destruct (format_entry cr format) as [fd [|]]; [|reflexivity].
  simpl. destruct (Unmarshal fd) as [u|]; [|reflexivity].
  destruct (u data target) as [v [e|]]; reflexivity.
Qed.

(** X8. [processFile] calls [os.ReadFile] at most once, on the path it was
    given, and only for an entry that is not a directory, whose reported
    size is within the limit and whose format is known. *)
Theorem processFile_reads_only cr env (fullPath : string) info :
  (reads (trace (processFile zero cr env fullPath info)) = [] ∨
   reads (trace (processFile zero cr env fullPath info)) = [fullPath]) ∧
  (reads (trace (processFile zero cr env fullPath info)) ≠ [] →
   fi_IsDir info = false ∧ fi_Size info <= maxFileSize cr ∧
   detectFormat cr (fi_Name info) ≠ FormatUnknown).
Proof.
  unfold processFile.
  destruct (fi_IsDir info); [split; [by left | done]|].
  destruct (maxFileSize cr <? fi_Size info) eqn:Hs; [split; [by left | done]|].
  destruct (detectFormat cr (fi_Name info) =? FormatUnknown) eqn:Hf;
    [split; [by left | done]|].
  apply Z.ltb_ge in Hs. apply Z.eqb_neq in Hf.
  split; [|by intros _].
  rewrite trace_bind.
  pose proof (reads_readAndParseFile cr env fullPath
                (detectFormat cr (fi_Name info)) zero) as Hp.
  destruct (result (readAndParseFile _ _ _ _ _)) as [[v [e|]]|];
    rewrite ?reads_app; simpl; rewrite ?app_nil_r; exact Hp.
Qed.

(** X9. [processFile] returns a value exactly when it returns no error, so
    the branch of [processEntry] for "no value and no error" is never
    taken. *)
Theorem processFile_value_xor_error cr env (fullPath : string) info
    (cfg : option T) (name : string) (err : option error) :
  result (processFile zero cr env fullPath info) = Returns (cfg, name, err) →
  (is_Some cfg ↔ err = None) ∧ (cfg = None ↔ is_Some err).
Proof.
  intros Hr. apply processFile_returns in Hr as [Hok Hko].
  destruct err as [e|].
  - rewrite (Hko ltac:(eauto)).
    split; split; intros H; try done; try (by destruct H as [? [=]]); eauto.
  - destruct (Hok eq_refl) as [_ [c ->]].
    split; split; intros H; try done; try (by destruct H as [? [=]]); eauto.
Qed.

Lemma ReadFile_path_result cr (path : string) :
  is_Some (logger cr) →
  result (if String.eqb path "" then
            let* _ := log cr LevelInfo "using default configuration file"
                        [slog_String "path" (defaultPath cr)] in
            ret (defaultPath cr)
          else ret path) = Returns (effective_path cr path).
Proof.
  intros Hl. unfold effective_path. destruct (String.eqb path ""); mstep; reflexivity.
Qed.

(** X10. [ReadFile] with a callable reader: a path that cannot be examined
    gives the wrapped [os.Stat] error, a directory gives an error, and a
    file gives what [processFile] gives for it, an error wrapped once
    more.  The value and the error are never both nil or both non-nil. *)
Theorem ReadFile_result cr env (filePath : string) :
  callable cr →
  ∃ r, result (ReadFile zero cr env filePath) = Returns r ∧
       ((is_Some r.1 ∧ r.2 = None) ∨ (r.1 = None ∧ is_Some r.2)) ∧
       match os_Stat env (effective_path cr filePath) with
       | inr err => r = (None, Some (FileInaccessible err))
       | inl info =>
           if fi_IsDir info then r = (None, Some IsDirectoryUseReadDir)
           else
             ∃ cfg (name : string) err,
               result (processFile zero cr env (effective_path cr filePath) info)
                 = Returns (cfg, name, err) ∧
               r = match err with
                   | Some err => (None, Some (ProcessError err))
                   | None => (cfg, None)
                   end
       end.
Proof.
  intros Hc. pose proof Hc as [Hl _]. unfold ReadFile.
  rewrite result_bind, ReadFile_path_result by exact Hl. mstep.
  destruct (os_Stat env (effective_path cr filePath)) as [info|e].
  - destruct (fi_IsDir info).
    + eexists. split; [reflexivity|]. split; [right; simpl; eauto | reflexivity].
    + rewrite result_bind.
      destruct (processFile_total zero cr env (effective_path cr filePath) info Hc)
        as [[[cfg name] err] Hr].
      rewrite Hr. pose proof (processFile_returns _ _ _ _ _ _ _ _ Hr) as [Hok Hko].
      destruct err as [err|]; mstep.
      * eexists. split; [reflexivity|]. split; [right; simpl; eauto|].
        exists cfg, name, (Some err). split; reflexivity.
      * destruct (Hok eq_refl) as [_ Hcfg].
        eexists. split; [reflexivity|]. split; [left; simpl; eauto|].
        exists cfg, name, None. split; reflexivity.
  - eexists. split; [reflexivity|]. split; [right; simpl; eauto | reflexivity].
Qed.

(** A single file has no lenient mode: [ReadFile] does the same, trace
    included, whatever the strict-mode and recursive flags are. *)
Lemma ReadFile_ignores_modes cr env (filePath : string) (strict rec : bool) :
  ReadFile zero (WithStrictMode strict (WithRecursive rec cr)) env filePath =
  ReadFile zero cr env filePath.
Proof. reflexivity. Qed.

End LoaderExtras.

Lemma processFile_reads_only_witness :
  reads (trace (processFile 0%nat (Demo.reader []) Demo.env "/cfg/mixed/valid.yaml"
                  (mkFileInfo "valid.yaml" 3 false))) = ["/cfg/mixed/valid.yaml"] ∧
  fi_Size (mkFileInfo "valid.yaml" 3 false) <= maxFileSize (Demo.reader []).
Proof.
  split; [vm_compute; reflexivity|].
  apply (processFile_reads_only 0%nat (Demo.reader []) Demo.env
           "/cfg/mixed/valid.yaml" (mkFileInfo "valid.yaml" 3 false)).
  vm_compute. discriminate.
Defined.

Lemma processFile_value_xor_error_witness :
  is_Some (Some 3%nat) ↔ (None : option error) = None.
Proof.
  apply (processFile_value_xor_error 0%nat (Demo.reader []) Demo.env
           "/cfg/mixed/valid.yaml" (mkFileInfo "valid.yaml" 3 false)
           (Some 3%nat) "valid" None).
  vm_compute. reflexivity.
Defined.

Lemma ReadFile_result_witness :
  ∃ r, result (ReadFile 0%nat (Demo.reader []) Demo.env "/cfg/mixed/broken.json")
       = Returns r ∧
       ((is_Some r.1 ∧ r.2 = None) ∨ (r.1 = None ∧ is_Some r.2)).
Proof.
  destruct (ReadFile_result 0%nat (Demo.reader []) Demo.env "/cfg/mixed/broken.json")
    as (r & Hr & Hone & _); [on_demo|].
  exists r. split; [exact Hr | exact Hone].
Defined.

(** ** Further properties: the facade *)

Section FacadeExtras.

Context {tables : UnicodeTables} {T : Type}.
Variable zero : T.
Implicit Types (cr : ConfigReader T) (env : Env) (info : FileInfo)
  (configs : gmap string T) (stats : scanStats) (vs : list visit).

Lemma ReadFile_total cr env (filePath : string) :
  callable cr → ∃ r, result (ReadFile zero cr env filePath) = Returns r.
Proof.
  intros Hc. pose proof Hc as [Hl _]. unfold ReadFile.
  rewrite result_bind, ReadFile_path_result by exact Hl. mstep.
  destruct (os_Stat env (effective_path cr filePath)) as [info|e]; [|eauto].
  destruct (fi_IsDir info); [eauto|]. rewrite result_bind.
  destruct (processFile_total zero cr env (effective_path cr filePath) info Hc)
    as [[[cfg name] [err|]] ->]; mstep; eauto.
Qed.

Lemma result_log_nil cr level msg attrs :
  logger cr = None → result (log cr level msg attrs) = Panics.
Proof. intros Hl. unfold log. rewrite Hl. reflexivity. Qed.

(** X11. The empty path stands for the default path: [ReadDirMap] and
    [ReadFile] return for "" what they return for the reader's default
    path, and [Read] does for "" what it does for the default path. *)
Theorem empty_path_is_default cr env :
  result (ReadDirMap zero cr env "") = result (ReadDirMap zero cr env (defaultPath cr)) ∧
  result (ReadFile zero cr env "") = result (ReadFile zero cr env (defaultPath cr)) ∧
  Read zero cr env "" = Read zero cr env (defaultPath cr).
Proof.
  split; [|split].
  - unfold ReadDirMap. simpl String.eqb. cbv iota.
    destruct (String.eqb (defaultPath cr) "") eqn:E.
    + apply String.eqb_eq in E. rewrite E. reflexivity.
    + destruct (logger cr) as [l|] eqn:Hl.
      * assert (is_Some (logger cr)) as Hl' by (rewrite Hl; eauto).
        rewrite !result_bind. mstep. reflexivity.
      * rewrite result_bind, (result_bind (log _ _ _ _)),
          (result_log_nil cr _ _ _ Hl).
        rewrite result_bind, result_ret, result_bind,
          (result_log_nil cr _ _ _ Hl). reflexivity.
  - unfold ReadFile. simpl String.eqb. cbv iota.
    destruct (String.eqb (defaultPath cr) "") eqn:E.
    + apply String.eqb_eq in E. rewrite E. reflexivity.
    + destruct (logger cr) as [l|] eqn:Hl.
      * assert (is_Some (logger cr)) as Hl' by (rewrite Hl; eauto).
        rewrite !result_bind. mstep. reflexivity.
      * rewrite result_bind, (result_bind (log _ _ _ _)),
          (result_log_nil cr _ _ _ Hl).
        rewrite result_bind, result_ret, result_bind,
          (result_log_nil cr _ _ _ Hl). reflexivity.
  - unfold Read. simpl String.eqb. cbv iota.
    destruct (String.eqb (defaultPath cr) ""); reflexivity.
Qed.

(** X12. [Read] examines the path once and dispatches on what it finds.  A
    path that cannot be examined gives the nil interface, [false] and the
    wrapped error.  Otherwise the flag says whether the path is a
    directory, the error is the one of [ReadDirMap] or of [ReadFile] on
    that path, and the content is a non-nil interface that holds their
    map or pointer, also when that map or pointer is nil because the call
    failed. *)
Theorem Read_dispatch cr env (path : string) :
  callable cr →
  match os_Stat env (effective_path cr path) with
  | inr err =>
      result (Read zero cr env path) =
        Returns (None, false, Some (PathInaccessible err))
  | inl info =>
      ∃ content err,
        result (Read zero cr env path) =
          Returns (Some content, fi_IsDir info, err) ∧
        if fi_IsDir info then
          ∃ m, content = any_map m ∧
               result (ReadDirMap zero cr env (effective_path cr path))
                 = Returns (m, err)
        else
          ∃ v, content = any_ptr v ∧
               result (ReadFile zero cr env (effective_path cr path))
                 = Returns (v, err)
  end.
Proof.
  intros Hc. pose proof Hc as [Hl _]. unfold Read.
  change (if String.eqb path "" then defaultPath cr else path)
    with (effective_path cr path).
  mstep. destruct (os_Stat env (effective_path cr path)) as [info|e];
    [|reflexivity].
  destruct (fi_IsDir info).
  - mstep.
    pose proof (ReadDirMap_result zero cr env (effective_path cr path) Hc) as Hr.
    destruct (match os_Stat env _ with inl _ => _ | inr _ => _ end) as [m e] in Hr.
    rewrite Hr. eexists _, _. split; [reflexivity|]. eauto.
  - mstep.
    destruct (ReadFile_total cr env (effective_path cr path) Hc) as [[v e] Hr].
    rewrite Hr. eexists _, _. split; [reflexivity|]. eauto.
Qed.

(** X13. [ReadDir] returns the error of [ReadDirMap] and no slice when
    [ReadDirMap] fails; otherwise it returns the values of the map, once
    each, in the order in which the map is ranged over: as many values as
    the map has names. *)
Theorem ReadDir_values (order : gmap string T → list (string * T)) cr env
    (dirPath : string) :
  (∀ m, order m ≡ₚ map_to_list m) →
  match result (ReadDirMap zero cr env dirPath) with
  | Returns (_, Some err) =>
      result (ReadDir zero order cr env dirPath) = Returns (None, Some err)
  | Returns (Some m, None) =>
      ∃ l, result (ReadDir zero order cr env dirPath) = Returns (Some l, None) ∧
           l ≡ₚ (map_to_list m).*2 ∧ length l = size m
  | Returns (None, None) => False
  | Panics => result (ReadDir zero order cr env dirPath) = Panics
  end.
Proof.
  intros Horder. unfold ReadDir. rewrite result_bind.
  destruct (result (ReadDirMap zero cr env dirPath)) as [[m [e|]]|] eqn:Hr;
    [destruct m; reflexivity | | reflexivity].
  apply ReadDirMap_returns in Hr as [[[m' Hm] _]|[_ [? [=]]]].
  simpl in Hm. subst m. simpl. eexists. split; [reflexivity|].
  split.
  - by rewrite (Horder m').
  - rewrite length_fmap, (Horder m'). apply length_map_to_list.
Qed.

Lemma listings_log cr level msg attrs : listings (trace (log cr level msg attrs)) = [].
Proof. unfold log. destruct (logger cr); reflexivity. Qed.

(** X14. [ReadDirMap] lists nothing before it knows that the path is a
    directory: for a path that cannot be examined, or that is not a
    directory, it returns the error, in either mode, and its trace holds
    no [os.ReadDir] and no [os.Lstat]. *)
Theorem ReadDirMap_checks_first cr env (dirPath : string) :
  callable cr →
  (∀ err, os_Stat env (effective_path cr dirPath) = inr err →
     result (ReadDirMap zero cr env dirPath) =
       Returns (None, Some (DirInaccessible err)) ∧
     listings (trace (ReadDirMap zero cr env dirPath)) = []) ∧
  (∀ info, os_Stat env (effective_path cr dirPath) = inl info →
     fi_IsDir info = false →
     result (ReadDirMap zero cr env dirPath) = Returns (None, Some NotADirectory) ∧
     listings (trace (ReadDirMap zero cr env dirPath)) = []).
Proof.
  intros [[l Hl] _]. unfold effective_path.
  split; [intros err Hs | intros info Hs Hd];
    unfold ReadDirMap, log; rewrite Hl;
    destruct (String.eqb dirPath ""); simpl; rewrite Hs; simpl;
    rewrite ?Hd; simpl; split; reflexivity.
Qed.

(** X15. When a lenient [ReadDirMap] succeeds: exactly when the path is a
    directory and, in flat mode, its listing does not fail.  In lenient
    recursive mode nothing met below the path can make the call fail. *)
Theorem lenient_ReadDirMap_succeeds cr env (dirPath : string) :
  callable cr → strictMode cr = false →
  ((∃ m, result (ReadDirMap zero cr env dirPath) = Returns (Some m, None)) ↔
   (∃ info, os_Stat env (effective_path cr dirPath) = inl info ∧
            fi_IsDir info = true ∧
            (recursive cr = true ∨
             (os_ReadDir env (effective_path cr dirPath)).2 = None))).
Proof.
  intros Hc Hs. rewrite (ReadDirMap_result zero cr env dirPath Hc).
  destruct (os_Stat env (effective_path cr dirPath)) as [info|e].
  - destruct (fi_IsDir info) eqn:Hd; simpl.
    + unfold scan_end. destruct (recursive cr).
      * destruct (steps_lenient zero cr env
                    (root_visits env (effective_path cr dirPath)) ∅
                    (mkScanStats 0 0 0) Hs) as (s' & -> & _).
        simpl. split; [intros _; exists info; auto | eauto].
      * destruct (os_ReadDir env (effective_path cr dirPath)) as [files [err|]];
          simpl.
        -- split; [intros [m [=]] | intros (i & _ & _ & [?|?]); discriminate].
        -- destruct (steps_lenient zero cr env
                       (flat_visits (effective_path cr dirPath) files) ∅
                       (mkScanStats 0 0 0) Hs) as (s' & -> & _).
           simpl. split; [intros _; exists info; auto | eauto].
    + split; [intros [m [=]] | intros (i & [= <-] & ? & _); congruence].
  - split; [intros [m [=]] | intros (i & ? & _); discriminate].
Qed.

End FacadeExtras.

Lemma Read_dispatch_witness :
  result (Read 0%nat (Demo.reader [WithStrictMode true]) Demo.env "/cfg/mixed") =
    Returns (Some (any_map None), true,
             Some (StrictProcessError "broken.json"
                     (ParseError "json" (errorString "unexpected end of JSON input")))) ∧
  result (Read 0%nat (Demo.reader []) Demo.env "/cfg/mixed/valid.yaml") =
    Returns (Some (any_ptr (Some 3%nat)), false, None) ∧
  result (Read 0%nat (Demo.reader []) Demo.env "/nowhere") =
    Returns (None, false, Some (PathInaccessible Demo.missing)).
Proof.
  split; [|split].
  - pose proof (Read_dispatch 0%nat (Demo.reader [WithStrictMode true]) Demo.env
                  "/cfg/mixed" ltac:(on_demo)) as H.
    vm_compute in H. destruct H as (c & e & H & m & -> & [= <- <-]).
    vm_compute. exact H.
  - pose proof (Read_dispatch 0%nat (Demo.reader []) Demo.env
                  "/cfg/mixed/valid.yaml" ltac:(on_demo)) as H.
    vm_compute in H. destruct H as (c & e & H & v & -> & [= <- <-]).
    vm_compute. exact H.
  - apply (Read_dispatch 0%nat (Demo.reader []) Demo.env "/nowhere"). on_demo.
Defined.

Lemma ReadDir_values_witness :
  ∃ l, result (ReadDir 0%nat map_to_list (Demo.reader []) Demo.env "/cfg/tree")
       = Returns (Some l, None) ∧ length l = 1%nat.
Proof.
  pose proof (ReadDir_values 0%nat map_to_list (Demo.reader []) Demo.env "/cfg/tree"
                ltac:(reflexivity)) as H.
  replace (result (ReadDirMap 0%nat (Demo.reader []) Demo.env "/cfg/tree"))
    with (Returns (Some (<["a" := 1%nat]> (∅ : gmap string nat)), @None error)) in H
    by (vm_compute; reflexivity).
  destruct H as (l & Hl & _ & Hlen). exists l. split; [exact Hl|].
  rewrite Hlen. reflexivity.
Defined.

Lemma ReadDirMap_checks_first_witness :
  result (ReadDirMap 0%nat (Demo.reader []) Demo.env "/cfg/mixed/valid.yaml") =
    Returns (None, Some NotADirectory) ∧
  listings (trace (ReadDirMap 0%nat (Demo.reader []) Demo.env "/cfg/mixed/valid.yaml"))
    = [].
Proof.
  apply (proj2 (ReadDirMap_checks_first 0%nat (Demo.reader []) Demo.env
                  "/cfg/mixed/valid.yaml" ltac:(on_demo))
           (mkFileInfo "valid.yaml" 3 false)); on_demo.
Defined.

Lemma lenient_ReadDirMap_succeeds_witness :
  ∃ m, result (ReadDirMap 0%nat (Demo.reader [WithRecursive true]) Demo.env "/cfg/tree")
       = Returns (Some m, None).
Proof.
  apply (lenient_ReadDirMap_succeeds 0%nat (Demo.reader [WithRecursive true]) Demo.env
           "/cfg/tree" ltac:(on_demo) eq_refl).
  exists (mkFileInfo "tree" 4096 true).
  split; [on_demo|]. split; [reflexivity|]. left. reflexivity.
Defined.

(** ** Further properties: the scanner *)

Section ScanExtras.

Context {tables : UnicodeTables} {T : Type}.
Variable zero : T.
Implicit Types (cr : ConfigReader T) (env : Env) (info : FileInfo)
  (configs : gmap string T) (stats : scanStats) (vs : list visit).

(** X16. On a directory whose visits are all clean (no file fails, no
    name comes twice, no traversal error) strict and lenient mode agree:
    with either setting of the flag [ReadDirMap] returns the map of all
    the values read. *)
Theorem clean_scan_same_in_both_modes cr env (dirPath : string) info vs
    (strict : bool) :
  callable cr →
  os_Stat env (effective_path cr dirPath) = inl info → fi_IsDir info = true →
  scan_visits cr env (effective_path cr dirPath) = Some vs →
  clean zero cr env vs ∅ →
  result (ReadDirMap zero (WithStrictMode strict cr) env dirPath) =
    Returns (Some (store_all (loads zero cr env vs) ∅), None).
Proof.
  intros Hc Hstat Hdir Hvs Hclean.
  assert (callable (WithStrictMode strict cr)) as Hc' by exact Hc.
  rewrite (ReadDirMap_result zero _ env dirPath Hc').
  change (effective_path (WithStrictMode strict cr) dirPath)
    with (effective_path cr dirPath).
  rewrite Hstat, Hdir. simpl negb. cbv iota.
  rewrite (scan_end_visits zero (WithStrictMode strict cr) env _ vs Hvs).
  destruct strict.
  - destruct (steps_clean zero (WithStrictMode true cr) env vs [] ∅
                (mkScanStats 0 0 0) Hc' Hclean) as (s' & Hst).
    rewrite app_nil_r in Hst. rewrite Hst. reflexivity.
  - destruct (steps_lenient zero (WithStrictMode false cr) env vs ∅
                (mkScanStats 0 0 0) eq_refl) as (s' & Hst & _).
    rewrite Hst. reflexivity.
Qed.

Lemma root_visits_flat env (p : string) info (files : list DirEntry) :
  os_Lstat env p = inl info → fi_IsDir info = true →
  os_ReadDir env p = (files, None) →
  Forall (λ f, de_IsDir f = false ∧
               filepath_Dir env (filepath_Join env p (de_Name f)) = p) files →
  root_visits env p = flat_visits p files.
Proof.
  intros Hl Hd Hr Hfiles. unfold root_visits. rewrite Hl.
  unfold FileInfoToDirEntry. rewrite Hr, Hd.
  change (walk_visits env p (mkDirEntry (fi_Name info) true (inl info) (files, None)))
    with ([] ++ entries_visits env p files).
  simpl app. clear Hr. induction Hfiles as [|f files [Hf Hdir] _ IH]; [reflexivity|].
  simpl. rewrite IH, Hf. destruct f as [n b i [ds e]]. simpl in *. subst b.
  rewrite Hdir. reflexivity.
Qed.

Lemma steps_ignores_recursive cr env vs configs stats (rec : bool) :
  steps zero (WithRecursive rec cr) env vs configs stats =
  steps zero cr env vs configs stats.
Proof.
  revert configs stats. induction vs as [|v vs IH]; intros configs stats;
    [reflexivity|].
  simpl.
  change (visit_step zero (WithRecursive rec cr) env v configs stats)
    with (visit_step zero cr env v configs stats).
  destruct (visit_step zero cr env v configs stats) as [[[e|] c] s];
    [reflexivity | apply IH].
Qed.

(** X17. On a directory without subdirectories the flat and the recursive
    scan agree, provided the walk sees the listing that the flat scan
    sees and the directory part of a joined path is the directory: with
    either setting of the flag [ReadDirMap] returns the same. *)
Theorem flat_directory_same_in_both_modes cr env (dirPath : string)
    (info info' : FileInfo) (files : list DirEntry) :
  callable cr →
  os_Stat env (effective_path cr dirPath) = inl info → fi_IsDir info = true →
  os_Lstat env (effective_path cr dirPath) = inl info' → fi_IsDir info' = true →
  os_ReadDir env (effective_path cr dirPath) = (files, None) →
  Forall (λ f, de_IsDir f = false ∧
               filepath_Dir env
                 (filepath_Join env (effective_path cr dirPath) (de_Name f))
               = effective_path cr dirPath) files →
  result (ReadDirMap zero (WithRecursive true cr) env dirPath) =
  result (ReadDirMap zero (WithRecursive false cr) env dirPath).
Proof.
  intros Hc Hstat Hdir Hl Hdir' Hr Hfiles.
  assert (callable (WithRecursive true cr)) as Ht by exact Hc.
  assert (callable (WithRecursive false cr)) as Hf by exact Hc.
  rewrite (ReadDirMap_result zero _ env dirPath Ht),
    (ReadDirMap_result zero _ env dirPath Hf).
  change (effective_path (WithRecursive true cr) dirPath)
    with (effective_path cr dirPath).
  change (effective_path (WithRecursive false cr) dirPath)
    with (effective_path cr dirPath).
  rewrite Hstat, Hdir. simpl negb. cbv iota.
  unfold scan_end. cbn [recursive WithRecursive].
  rewrite Hr, (root_visits_flat _ _ _ _ Hl Hdir' Hr Hfiles).
  rewrite !steps_ignores_recursive. reflexivity.
Qed.

Lemma length_omap_le {A B} (f : A → option B) (l : list A) :
  (length (omap f l) <= length l)%nat.
Proof.
  induction l as [|a l IH]; [reflexivity|].
  change (omap f (a :: l)) with (match f a with Some b => b :: omap f l | None => omap f l end).
  destruct (f a); simpl; lia.
Qed.

Lemma loads_flat_length cr env (dir : string) (files : list DirEntry) :
  (length (loads zero cr env (flat_visits dir files)) <= length files)%nat.
Proof.
  unfold loads. etrans; [apply length_omap_le|].
  unfold flat_visits. by rewrite length_map.
Qed.

Lemma store_all_size (l : list (string * T)) configs :
  (size (store_all l configs) <= size configs + length l)%nat.
Proof.
  revert configs. induction l as [|[k v] l IH]; intros configs; simpl; [lia|].
  etrans; [apply IH|]. rewrite map_size_insert.
  destruct (configs !! k); simpl; lia.
Qed.

Lemma loads_cons_file cr env (dir : string) (file : DirEntry) vs :
  loads zero cr env (visit_file dir file :: vs) =
  match loaded zero cr env dir file with
  | Some kv => kv :: loads zero cr env vs
  | None => loads zero cr env vs
  end.
Proof. reflexivity. Qed.

Lemma flat_counts cr env (dir : string) (files : list DirEntry) configs stats :
  callable cr → strictMode cr = false →
  ∃ stats',
    steps zero cr env (flat_visits dir files) configs stats =
      (None, store_all (loads zero cr env (flat_visits dir files)) configs, stats') ∧
    processed stats' =
      add_wrapped (processed stats)
        (length (loads zero cr env (flat_visits dir files))) ∧
    skipped stats' =
      add_wrapped (skipped stats)
        (length files - length (loads zero cr env (flat_visits dir files))).
Proof.
  intros Hc Hs. revert configs stats.
  induction files as [|file files IH]; intros configs stats.
  - exists stats. repeat split.
  - pose proof (loads_flat_length cr env dir files) as Hle.
    change (flat_visits dir (file :: files))
      with ((if de_IsDir file then visit_skip else visit_file dir file)
              :: flat_visits dir files).
    destruct (de_IsDir file).
    + change (loads zero cr env (visit_skip :: flat_visits dir files))
        with (loads zero cr env (flat_visits dir files)).
      cbn [steps visit_step].
      destruct (IH configs (inc_skipped stats)) as (s' & -> & Hp & Hk).
      exists s'. split; [reflexivity|]. split; [exact Hp|].
      rewrite Hk. change (skipped (inc_skipped stats)) with (incr (skipped stats)).
      rewrite add_wrapped_S. f_equal. simpl length. lia.
    + rewrite loads_cons_file. cbn [steps visit_step]. unfold entry_step. rewrite Hs.
      destruct (failure zero cr env dir file) as [e|] eqn:Hf.
      * rewrite (failure_excludes_loaded _ _ _ _ _ _ Hf).
        destruct (IH configs (inc_skipped (inc_errors stats)))
          as (s' & -> & Hp & Hk).
        exists s'. split; [reflexivity|]. split; [exact Hp|].
        rewrite Hk.
        change (skipped (inc_skipped (inc_errors stats))) with (incr (skipped stats)).
        rewrite add_wrapped_S. f_equal. simpl length. lia.
      * destruct (entry_ends zero cr env dir file Hc) as [[e He]|[[name cfg] Hl]];
          [congruence|].
        rewrite Hl.
        destruct (IH (<[name:=cfg]> configs) (inc_processed stats))
          as (s' & Hst & Hp & Hk).
        exists s'. split; [destruct (configs !! name); exact Hst|].
        split.
        -- rewrite Hp.
           change (processed (inc_processed stats)) with (incr (processed stats)).
           rewrite add_wrapped_S. reflexivity.
        -- rewrite Hk.
           change (skipped (inc_processed stats)) with (skipped stats).
           f_equal.
Qed.

Lemma failures_cons_file cr env (dir : string) (file : DirEntry) vs :
  failures zero cr env (visit_file dir file :: vs) =
  match failure zero cr env dir file with
  | Some e => e :: failures zero cr env vs
  | None => failures zero cr env vs
  end.
Proof. reflexivity. Qed.

(** Every listed entry is a subdirectory, a file that fails or a file
    that is read. *)
Lemma flat_partition cr env (dir : string) (files : list DirEntry) :
  callable cr →
  length files =
  (length (loads zero cr env (flat_visits dir files)) +
   length (List.filter de_IsDir files) +
   length (failures zero cr env (flat_visits dir files)))%nat.
Proof.
  intros Hc. induction files as [|file files IH]; [reflexivity|].
  change (flat_visits dir (file :: files))
    with ((if de_IsDir file then visit_skip else visit_file dir file)
            :: flat_visits dir files).
  cbn [List.filter]. destruct (de_IsDir file).
  - change (loads zero cr env (visit_skip :: flat_visits dir files))
      with (loads zero cr env (flat_visits dir files)).
    change (failures zero cr env (visit_skip :: flat_visits dir files))
      with (failures zero cr env (flat_visits dir files)).
    simpl length. lia.
  - rewrite loads_cons_file, failures_cons_file.
    destruct (failure zero cr env dir file) as [e|] eqn:Hf.
    + rewrite (failure_excludes_loaded _ _ _ _ _ _ Hf). simpl length. lia.
    + destruct (entry_ends zero cr env dir file Hc) as [[e He]|[kv Hl]];
        [congruence|].
      rewrite Hl. simpl length. lia.
Qed.

(** X18. The counters of a lenient flat scan.  The loop returns no error
    and the map with every value read stored in turn.  It increments
    [processed] once per file read (overwrites included), [errors] once
    per file that fails, and [skipped] once per subdirectory and once per
    file that fails; every listed entry is one of the three.  The map
    ends with at most as many more names as files were read.  From zero,
    and with fewer than 2^63 entries, [processed + skipped] is the number
    of entries. *)
Theorem lenient_flat_counters cr env (dir : string) (files : list DirEntry)
    configs stats :
  callable cr → strictMode cr = false →
  ∃ stats',
    result (scanFlat_loop zero cr env dir files configs stats) =
      Returns (None,
               store_all (loads zero cr env (flat_visits dir files)) configs,
               stats') ∧
    processed stats' =
      add_wrapped (processed stats)
        (length (loads zero cr env (flat_visits dir files))) ∧
    errors stats' =
      add_wrapped (errors stats)
        (length (failures zero cr env (flat_visits dir files))) ∧
    skipped stats' =
      add_wrapped (skipped stats)
        (length (List.filter de_IsDir files) +
         length (failures zero cr env (flat_visits dir files))) ∧
    length files =
      (length (loads zero cr env (flat_visits dir files)) +
       length (List.filter de_IsDir files) +
       length (failures zero cr env (flat_visits dir files)))%nat ∧
    (size (store_all (loads zero cr env (flat_visits dir files)) configs) <=
     size configs + length (loads zero cr env (flat_visits dir files)))%nat ∧
    (processed stats = 0 → skipped stats = 0 →
     Z.of_nat (length files) < 2 ^ 63 →
     processed stats' + skipped stats' = Z.of_nat (length files)).
Proof.
  intros Hc Hs. rewrite scanFlat_loop_result by exact Hc.
  destruct (flat_counts cr env dir files configs stats Hc Hs) as (s' & Hst & Hp & Hk).
  destruct (steps_lenient zero cr env (flat_visits dir files) configs stats Hs)
    as (s'' & Hst' & He).
  rewrite Hst in Hst'. injection Hst' as <-.
  pose proof (flat_partition cr env dir files Hc) as Hpart.
  exists s'. rewrite Hst. split; [reflexivity|].
  split; [exact Hp|]. split; [exact He|].
  split; [rewrite Hk; f_equal; lia|].
  split; [exact Hpart|]. split; [apply store_all_size|].
  intros Hp0 Hk0 Hsmall. rewrite Hp, Hk, Hp0, Hk0.
  rewrite !add_wrapped_small by lia. lia.
Qed.

End ScanExtras.

Lemma clean_scan_same_in_both_modes_witness :
  result (ReadDirMap 0%nat (WithStrictMode true (Demo.reader [])) Demo.env "/cfg/tree") =
  result (ReadDirMap 0%nat (WithStrictMode false (Demo.reader [])) Demo.env "/cfg/tree").
Proof.
  etransitivity; [|symmetry].
  - apply (clean_scan_same_in_both_modes 0%nat (Demo.reader [])
             Demo.env "/cfg/tree" (mkFileInfo "tree" 4096 true)
             [visit_file "/cfg/tree" (Demo.file "a.yaml" 1); visit_skip; visit_skip]
             true); on_demo.
  - apply (clean_scan_same_in_both_modes 0%nat (Demo.reader [])
             Demo.env "/cfg/tree" (mkFileInfo "tree" 4096 true)
             [visit_file "/cfg/tree" (Demo.file "a.yaml" 1); visit_skip; visit_skip]
             false); on_demo.
Defined.

Lemma flat_directory_same_in_both_modes_witness :
  result (ReadDirMap 0%nat (WithRecursive true (Demo.reader [])) Demo.env "/cfg/dup") =
  result (ReadDirMap 0%nat (WithRecursive false (Demo.reader [])) Demo.env "/cfg/dup").
Proof.
  apply (flat_directory_same_in_both_modes 0%nat (Demo.reader []) Demo.env "/cfg/dup"
           (mkFileInfo "dup" 4096 true) (mkFileInfo "dup" 4096 true)
           [Demo.file "svc.yaml" 3; Demo.file "svc.json" 5]);
    try on_demo.
  repeat constructor.
Defined.

Lemma lenient_flat_counters_witness :
  ∃ stats',
    result (scanFlat_loop 0%nat (Demo.reader []) Demo.env "/cfg/mixed"
              [Demo.file "valid.yaml" 3; Demo.dir "sub" [] None;
               Demo.file "broken.json" 0; Demo.file "notes.txt" 1] ∅
              (mkScanStats 0 0 0)) =
      Returns (None, store_all [("valid", 3%nat)] ∅, stats') ∧
    processed stats' = 1 ∧ errors stats' = 2 ∧ skipped stats' = 3.
Proof.
  destruct (lenient_flat_counters 0%nat (Demo.reader []) Demo.env "/cfg/mixed"
              [Demo.file "valid.yaml" 3; Demo.dir "sub" [] None;
               Demo.file "broken.json" 0; Demo.file "notes.txt" 1] ∅
              (mkScanStats 0 0 0) ltac:(on_demo) eq_refl)
    as (s & Hr & Hp & He & Hk & _).
  exists s. split; [exact Hr|].
  split; [exact Hp|]. split; [exact He | exact Hk].
Defined.

(** ** Further properties: the root of a walk *)

Section WalkExtras.

Context {tables : UnicodeTables} {T : Type}.
Variable zero : T.
Implicit Types (cr : ConfigReader T) (env : Env) (info : FileInfo)
  (configs : gmap string T) (stats : scanStats).

Lemma listings_app (t1 t2 : list event) :
  listings (t1 ++ t2) = listings t1 ++ listings t2.
Proof. apply omap_app. Qed.

Lemma listings_processFile cr env (fullPath : string) info :
  listings (trace (processFile zero cr env fullPath info)) = [].
Proof.
  unfold processFile, readAndParseFile, log.
  destruct (fi_IsDir info); [reflexivity|].
  destruct (maxFileSize cr <? fi_Size info); [reflexivity|].
  destruct (detectFormat cr (fi_Name info) =? FormatUnknown); [reflexivity|].
  destruct (logger cr); [|reflexivity].
  destruct (os_ReadFile env fullPath) as [data|e]; [|reflexivity].
  destruct (format_entry cr (detectFormat cr (fi_Name info))) as [fd [|]];
    [|reflexivity].
  simpl. destruct (Unmarshal fd) as [u|]; [|reflexivity].
  destruct (u data zero) as [v [e|]]; reflexivity.
Qed.

Lemma listings_processEntry cr env (dir : string) (entry : DirEntry) configs stats :
  listings (trace (processEntry zero cr env dir entry configs stats)) = [].
Proof.
  unfold processEntry. destruct (de_Info entry) as [info|err].
  - rewrite trace_bind.
    pose proof (listings_processFile cr env
                  (filepath_Join env dir (de_Name entry)) info) as Hp.
    destruct (result (processFile _ _ _ _ _)) as [[[cfg name] err]|];
      [|exact Hp].
    rewrite listings_app, Hp. simpl. unfold log.
    destruct err as [err|].
    + destruct (logger cr); [|reflexivity]. destruct (strictMode cr); reflexivity.
    + destruct cfg as [cfg|]; [|reflexivity].
      destruct (configs !! name); destruct (logger cr); try reflexivity;
        destruct (strictMode cr); reflexivity.
  - unfold log. destruct (logger cr); [|reflexivity].
    destruct (strictMode cr); reflexivity.
Qed.

(** X19. The recursive scan does not follow a root that [os.Lstat] does not
    report as a directory (a symbolic link to a directory, say, which
    [os.Stat] does report as one): it hands the root itself to
    [processEntry], relative to the directory part of the path, and lists
    nothing. *)
Theorem recursive_root_not_directory cr env (dirPath : string) info configs stats :
  os_Lstat env dirPath = inl info → fi_IsDir info = false →
  scanRecursive zero cr env dirPath configs stats =
    (let* _ := emit (ev_Lstat dirPath) in
     let* '(err, configs, stats) :=
       processEntry zero cr env (filepath_Dir env dirPath)
         (FileInfoToDirEntry env dirPath info) configs stats in
     ret (err, configs, stats)) ∧
  listings (trace (scanRecursive zero cr env dirPath configs stats)) = [dirPath].
Proof.
  intros Hl Hd.
  assert (scanRecursive zero cr env dirPath configs stats =
          (let* _ := emit (ev_Lstat dirPath) in
           let* '(err, configs, stats) :=
             processEntry zero cr env (filepath_Dir env dirPath)
               (FileInfoToDirEntry env dirPath info) configs stats in
           ret (err, configs, stats))) as Heq.
  { unfold scanRecursive, WalkDir. rewrite Hl. unfold FileInfoToDirEntry.
    destruct (os_ReadDir env dirPath) as [dirs readErr].
    rewrite walkDir_unfold. cbv zeta. unfold walkFn. simpl de_IsDir.
    rewrite Hd. simpl negb. cbv iota.
    destruct (processEntry zero cr env (filepath_Dir env dirPath) _ configs stats)
      as [t [[[[e|] c] s]|]]; reflexivity. }
  split; [exact Heq|]. rewrite Heq.
  pose proof (listings_processEntry cr env (filepath_Dir env dirPath)
                (FileInfoToDirEntry env dirPath info) configs stats) as Hp.
  destruct (processEntry zero cr env (filepath_Dir env dirPath) _ configs stats)
    as [t [[[[e|] c] s]|]]; simpl in *; rewrite ?app_nil_r, ?Hp; reflexivity.
Qed.

End WalkExtras.

Lemma recursive_root_not_directory_witness :
  listings (trace (scanRecursive 0%nat (Demo.reader [WithRecursive true]) Demo.env
                     "/cfg/mixed/valid.yaml" ∅ (mkScanStats 0 0 0)))
    = ["/cfg/mixed/valid.yaml"].
Proof.
  apply (recursive_root_not_directory 0%nat (Demo.reader [WithRecursive true])
           Demo.env "/cfg/mixed/valid.yaml" (mkFileInfo "valid.yaml" 3 false));
    on_demo.
Defined.
